(** * iq-puzzler: the placement and search engine

    A shallow embedding of the final variant of the solver (the one with
    the symmetry flag, the fixed image buffer and the channel of
    solutions), followed by the properties of its geometry, of the
    orientation precomputation, of [add]/[pop] and of the two search entry
    points. *)

From Stdlib Require Import ZArith Lia Ascii.
From stdpp Require Import base tactics option list strings.

Local Open Scope Z_scope.

(** ** Go's [int]

    The program runs with 64-bit [int]s.  An [int] is a [Z]; every
    arithmetic operation of the source is followed by [wrap], Go's silent
    two's-complement wrap-around. *)

Definition int_min : Z := - 2 ^ 63.
Definition int_max : Z := 2 ^ 63 - 1.

Definition wrap (z : Z) : Z := (z + 2 ^ 63) mod 2 ^ 64 - 2 ^ 63.

Definition in_int (z : Z) : Prop := int_min <= z <= int_max.

(** ** Positions and transformations *)

(** [type Pos [2]int] *)
Definition Pos : Type := Z * Z.

(** A [Pos] whose two components are values of type [int]. *)
Definition in_int_pos (p : Pos) : Prop := in_int p.1 /\ in_int p.2.

(** [func (p Pos) translate(p2 Pos) Pos] *)
Definition translate (p p2 : Pos) : Pos :=
  (wrap (p.1 + p2.1), wrap (p.2 + p2.2)).

(** [type Matrix [2][2]int]: a pair of rows. *)
Definition Matrix : Type := (Z * Z) * (Z * Z).

(** [m[i][j]] for the four constant index pairs the source uses. *)
Definition m00 (m : Matrix) : Z := m.1.1.
Definition m01 (m : Matrix) : Z := m.1.2.
Definition m10 (m : Matrix) : Z := m.2.1.
Definition m11 (m : Matrix) : Z := m.2.2.

(** [func (m Matrix) Transform(p Pos) Pos] *)
Definition Transform (m : Matrix) (p : Pos) : Pos :=
  (wrap (wrap (m00 m * p.1) + wrap (m01 m * p.2)),
   wrap (wrap (m10 m * p.1) + wrap (m11 m * p.2))).

(** [func (m Matrix) Mult(m2 Matrix) Matrix] *)
Definition Mult (m m2 : Matrix) : Matrix :=
  ((wrap (wrap (m00 m * m00 m2) + wrap (m01 m * m10 m2)),
    wrap (wrap (m00 m * m01 m2) + wrap (m01 m * m11 m2))),
   (wrap (wrap (m10 m * m00 m2) + wrap (m11 m * m10 m2)),
    wrap (wrap (m10 m * m01 m2) + wrap (m11 m * m11 m2)))).

Definition Identity : Matrix := ((1, 0), (0, 1)).
Definition Rot90 : Matrix := ((0, 1), (-1, 0)).
Definition Mirror : Matrix := ((1, 0), (0, -1)).

(** [var tx = []Matrix{...}], in the order of the source. *)
Definition tx : list Matrix :=
  [ Identity;
    Mirror;
    Rot90;
    Mult Rot90 Mirror;
    Mult Rot90 Rot90;
    Mult (Mult Rot90 Rot90) Rot90;
    Mult (Mult Rot90 Rot90) Mirror;
    Mult (Mult (Mult Rot90 Rot90) Rot90) Mirror ].



(** ** Pieces *)

Record Piece : Type := mkPiece {
  name : string;
  pos : list Pos;
  sym : bool
}.

(** [func (p Piece) transform(m Matrix) Piece]: the loop appends
    [m.Transform(pos)] for every offset in order. *)
Definition transform (p : Piece) (m : Matrix) : Piece :=
  mkPiece (name p) (foldl (fun posi q => posi ++ [Transform m q]) [] (pos p)) (sym p).

(** The loop of [allVersions]: [t] is the index of the head of [ms] in
    [tx], [res] the slice built so far.  [return res] leaves the loop when
    the piece is symmetric and [t >= 4]. *)
Fixpoint allVersions_from (p : Piece) (t : Z) (ms : list Matrix) (res : list Piece)
  : list Piece :=
  match ms with
  | [] => res
  | m :: ms' =>
      if sym p && (t >=? 4) then res
      else allVersions_from p (t + 1) ms' (res ++ [transform p m])
  end.

(** [func (p Piece) allVersions() []Piece] *)
Definition allVersions (p : Piece) : list Piece := allVersions_from p 0 tx [].

(** [var pieces = []Piece{...}] *)
Definition pieces : list Piece :=
  [ mkPiece "blue" [(0, 0); (0, 1); (0, 2); (1, 0)] false;
    mkPiece "green" [(0, 0); (1, 0); (2, 0); (1, 1)] true;
    mkPiece "lightblue" [(0, 0); (1, 0); (2, 0); (2, 1); (2, 2)] true;
    mkPiece "maroon" [(0, 0); (0, 1); (1, 1); (1, 2)] true;
    mkPiece "mint" [(0, 0); (0, 1); (0, 2); (1, 0); (1, 1)] false;
    mkPiece "olive" [(0, 0); (1, 0); (2, 0); (0, 1); (2, 1)] true;
    mkPiece "orange" [(0, 0); (1, 0); (1, 1); (1, 2); (2, 1)] false;
    mkPiece "pink" [(0, 0); (0, 1); (0, 2); (1, 2); (1, 3)] false;
    mkPiece "red" [(0, 0); (0, 1); (0, 2); (0, 3); (1, 0)] false;
    mkPiece "turquoise" [(0, 0); (0, 1); (1, 0)] false;
    mkPiece "violet" [(0, 0); (1, 0); (1, 1); (2, 1); (2, 2)] true;
    mkPiece "yellow" [(0, 0); (0, 1); (0, 2); (0, 3); (1, 1)] false ].

(** [func precompute(ps []Piece) [][]Piece] *)
Definition precompute (ps : list Piece) : list (list Piece) :=
  foldl (fun res piece => res ++ [allVersions piece]) [] ps.

(** An orientation the search can hand to [add]: a member of
    [allVersions] of a catalog piece. *)
Definition catalog_orientation (o : Piece) : Prop :=
  exists q, In q pieces /\ In o (allVersions q).

(** ** Moves and the game *)

(** [type Move struct { Piece Piece; Translate Pos }] *)
Record Move : Type := mkMove {
  MovePiece : Piece;
  Translate : Pos
}.

(** [func (m Move) image() []Pos] *)
Definition image (m : Move) : list Pos :=
  foldl (fun res p => res ++ [translate p (Translate m)]) [] (pos (MovePiece m)).

Definition DimX : Z := 5.
Definition DimY : Z := 11.

(** [cells [DimX][DimY]bool] is carried by a list of rows.  A Go array has
    exactly [DimX] rows of [DimY] cells; [wf_cells] says so. *)
Abbreviation Cells := (list (list bool)).

Record Game : Type := mkGame {
  moves : list Move;
  cells : Cells;
  count : Z
}.

Definition wf_cells (c : Cells) : Prop :=
  length c = Z.to_nat DimX /\ Forall (fun row => length row = Z.to_nat DimY) c.

(** [pi[0] < 0 || pi[0] >= DimX || pi[1] < 0 || pi[1] >= DimY] *)
Definition out_of_bounds (pi : Pos) : bool :=
  (pi.1 <? 0) || (pi.1 >=? DimX) || (pi.2 <? 0) || (pi.2 >=? DimY).

(** [cells[pi[0]][pi[1]]], read after the bounds test. *)
Definition cell (c : Cells) (pi : Pos) : bool :=
  default false (c !! Z.to_nat pi.1 ≫= (.!! Z.to_nat pi.2)).

(** [cells[pi[0]][pi[1]] = b], for an index inside the array. *)
Definition set_cell (c : Cells) (pi : Pos) (b : bool) : Cells :=
  alter (<[Z.to_nat pi.2 := b]>) (Z.to_nat pi.1) c.

(** The number of [true] cells of the grid. *)
Fixpoint row_count (row : list bool) : nat :=
  match row with
  | [] => 0%nat
  | b :: row' => ((if b then 1 else 0) + row_count row')%nat
  end.

Fixpoint true_cells (c : Cells) : nat :=
  match c with
  | [] => 0%nat
  | row :: c' => (row_count row + true_cells c')%nat
  end.

(** The sum of the image sizes of the moves of a stack. *)
Definition image_sizes (ms : list Move) : Z :=
  foldr (fun m acc => Z.of_nat (length (image m)) + acc) 0 ms.

(** What a call leaves behind: a run-time panic (an index out of range),
    or the returned values together with the game the receiver points to
    afterwards. *)
Inductive Outcome (A : Type) : Type :=
| Panicked : Outcome A
| Returned : A -> Game -> Outcome A.
Arguments Panicked {A}.
Arguments Returned {A} _ _.

(** The first loop of [add].  [i] is the loop index, [img] the local
    [var image [5]Pos].  The store [image[i] = pi] is out of range when
    [i >= 5]. *)
Inductive Scan : Type :=
| ScanPanic : Scan
| ScanReject : Scan
| ScanDone : list Pos -> Scan.

Fixpoint add_scan (c : Cells) (anchor : Pos) (i : nat) (ps : list Pos) (img : list Pos)
  : Scan :=
  match ps with
  | [] => ScanDone img
  | p :: ps' =>
      let pi := translate p anchor in
      if out_of_bounds pi then ScanReject
      else if cell c pi then ScanReject
      else if (5 <=? i)%nat then ScanPanic
      else add_scan c anchor (S i) ps' (<[i := pi]> img)
  end.

(** The second loop of [add]: [for i := range piece.pos] marks
    [image[i]]. *)
Fixpoint add_mark (c : Cells) (img : list Pos) (idx : list nat) : option Cells :=
  match idx with
  | [] => Some c
  | i :: idx' =>
      match img !! i with
      | None => None
      | Some pi => add_mark (set_cell c pi true) img idx'
      end
  end.

(** [func (g *Game) add(piece Piece, pos Pos) (bool, error)] *)
Definition add (g : Game) (piece : Piece) (anchor : Pos) : Outcome (bool * option string) :=
  if wrap (count g + Z.of_nat (length (pos piece))) >? DimX * DimY then
    Returned (false, Some "board is already full"%string) g
  else
    match add_scan (cells g) anchor 0 (pos piece) (replicate 5 (0, 0)) with
    | ScanPanic => Panicked
    | ScanReject => Returned (false, None) g
    | ScanDone img =>
        match add_mark (cells g) img (seq 0 (length (pos piece))) with
        | None => Panicked
        | Some cells' =>
            Returned (true, None)
              (mkGame (moves g ++ [mkMove piece anchor])
                      cells'
                      (wrap (count g + Z.of_nat (length (pos piece)))))
        end
    end.

(** The loop of [pop]: the stores [g.cells[pi[0]][pi[1]] = false] are not
    guarded by the source, so an index outside the array panics. *)
Fixpoint pop_clear (c : Cells) (anchor : Pos) (ps : list Pos) : option Cells :=
  match ps with
  | [] => Some c
  | p :: ps' =>
      let pi := translate p anchor in
      if out_of_bounds pi then None
      else pop_clear (set_cell c pi false) anchor ps'
  end.

(** [func (g *Game) pop() error] *)
Definition pop (g : Game) : Outcome (option string) :=
  match last (moves g) with
  | None => Returned (Some "failed to pop from empty game"%string) g
  | Some m =>
      match pop_clear (cells g) (Translate m) (pos (MovePiece m)) with
      | None => Panicked
      | Some cells' =>
          Returned None
            (mkGame (take (length (moves g) - 1) (moves g))
                    cells'
                    (wrap (count g - Z.of_nat (length (pos (MovePiece m))))))
      end
  end.

(** ** Parsing the starting board *)

(** [strings.Split(b, ",")]: the pieces of [b] between the commas; the
    empty string gives one empty piece. *)
Fixpoint split_comma (s : string) : list string :=
  match s with
  | EmptyString => [EmptyString]
  | String c s' =>
      if Ascii.eqb c ","%char then EmptyString :: split_comma s'
      else match split_comma s' with
           | r :: rs => String c r :: rs
           | [] => [String c EmptyString]
           end
  end.

(** The two ways [parseBoard] fails. *)
Inductive ParseError : Type :=
| BadRowCount (got : nat)
| BadRowLength (row : string) (got : nat).

(** [for y, c := range row]: the loop visits the runes of the row with
    their byte offsets.  The byte of ['x'] is never part of a longer
    encoding, so the runes equal to ['x'] are exactly the bytes equal to
    ['x'], at their own offsets; the loop is modelled over the bytes. *)
Fixpoint parse_row (x y : Z) (row : string) (g : Game) : Game :=
  match row with
  | EmptyString => g
  | String c row' =>
      parse_row x (y + 1) row'
        (if Ascii.eqb c "x"%char
         then mkGame (moves g) (set_cell (cells g) (x, y) true) (wrap (count g + 1))
         else g)
  end.

Fixpoint parse_rows (x : Z) (rows : list string) (g : Game) : ParseError + Game :=
  match rows with
  | [] => inr g
  | row :: rows' =>
      if negb (Z.of_nat (String.length row) =? DimY)
      then inl (BadRowLength row (String.length row))
      else parse_rows (x + 1) rows' (parse_row x 0 row g)
  end.

(** [new(Game)]: no moves, every cell [false], count 0. *)
Definition new_Game : Game :=
  mkGame [] (replicate (Z.to_nat DimX) (replicate (Z.to_nat DimY) false)) 0.

(** [func parseBoard(b string)], returning the game or the error. *)
Definition parseBoard (b : string) : ParseError + Game :=
  let rows := split_comma b in
  if negb (Z.of_nat (length rows) =? DimX) then inl (BadRowCount (length rows))
  else parse_rows 0 rows new_Game.

(** The default value of the [-board] flag. *)
Definition default_board : string :=
  "xxxxxxxxxxx,xxxxxxxxxxx,xxxxxxxxxxx,xxxxxxxxxxx,xxxxxxxxxxx".

(** ** The search *)

(** The three nested loops of [solve] and [solveP], flattened in their
    order: [x] from 0 to [DimX - 1], inside it [y] from 0 to [DimY - 1],
    inside it the orientations of the last entry of the pool. *)
Definition candidates (versions : list Piece) : list (Pos * Piece) :=
  x ← seqZ 0 DimX; y ← seqZ 0 DimY; piece ← versions; [((x, y), piece)].

(** [solve] sends on [ch]; the values a call sends, in order, are
    returned next to its error.  [solve_rev] takes the pool reversed, so
    that [ps[len(ps)-1]] is the head and [ps[:len(ps)-1]] the tail. *)
Fixpoint solve_rev (rps : list (list Piece)) (g : Game)
  : Outcome (option string * list (list Move)) :=
  match rps with
  | [] =>
      if negb (count g =? DimX * DimY)
      then Returned (Some "no pieces left, but board is not full"%string, []) g
      else Returned (None, [moves g]) g
  | versions :: rest =>
      (fix loop (cs : list (Pos * Piece)) (g : Game) (sent : list (list Move))
         : Outcome (option string * list (list Move)) :=
         match cs with
         | [] => Returned (None, sent) g
         | (p, piece) :: cs' =>
             match add g piece p with
             | Panicked => Panicked
             | Returned (_, Some err) g1 => Returned (Some err, sent) g1
             | Returned (false, None) g1 => loop cs' g1 sent
             | Returned (true, None) g1 =>
                 match solve_rev rest g1 with
                 | Panicked => Panicked
                 | Returned (Some err, s) g2 => Returned (Some err, sent ++ s) g2
                 | Returned (None, s) g2 =>
                     match pop g2 with
                     | Panicked => Panicked
                     | Returned (Some err) g3 => Returned (Some err, sent ++ s) g3
                     | Returned None g3 => loop cs' g3 (sent ++ s)
                     end
                 end
             end
         end) (candidates versions) g []
  end.

(** [func (g *Game) solve(ps [][]Piece, ch chan<- []Move) error] *)
Definition solve (g : Game) (ps : list (list Piece))
  : Outcome (option string * list (list Move)) :=
  solve_rev (rev ps) g.

(** One goroutine of [solveP]: it returns without output when the
    placement is rejected, panics on an error of [add] or [solve], and
    otherwise has sent the solutions of its branch. *)
Inductive Branch : Type :=
| BranchSkipped
| BranchPanicked
| BranchDone (sent : list (list Move)).

(** What [solveP] hands back: the nil channel, or a channel fed by the
    goroutines (listed in the order they are started) and closed once all
    of them are done.  How the sends of different goroutines interleave is
    left open. *)
Inductive Stream : Type :=
| NilChan
| Chan (branches : list Branch).

Definition solveP_branch (g : Game) (rest : list (list Piece)) (c : Pos * Piece) : Branch :=
  let g2 := mkGame [] (cells g) (count g) in
  match add g2 c.2 c.1 with
  | Panicked => BranchPanicked
  | Returned (_, Some _) _ => BranchPanicked
  | Returned (false, None) _ => BranchSkipped
  | Returned (true, None) g3 =>
      match solve g3 rest with
      | Panicked => BranchPanicked
      | Returned (Some _, _) _ => BranchPanicked
      | Returned (None, s) _ => BranchDone s
      end
  end.

(** [func (g Game) solveP(ps [][]Piece) <-chan []Move] *)
Definition solveP (g : Game) (ps : list (list Piece)) : Stream :=
  if (length ps =? 0)%nat then NilChan
  else
    Chan (map (solveP_branch g (take (length ps - 1) ps))
              (candidates (default [] (last ps)))).

(** ** Notions used to state and prove the properties *)

(** The array indices a position addresses. *)
Definition idx (p : Pos) : nat * nat := (Z.to_nat p.1, Z.to_nat p.2).

(** The cell at a pair of indices, when the grid has one there. *)
Definition cell_opt (c : Cells) (ij : nat * nat) : option bool :=
  c !! ij.1 ≫= (.!! ij.2).

(** The store of [set_cell], on indices. *)
Definition put (c : Cells) (ij : nat * nat) (b : bool) : Cells :=
  alter (<[ij.2 := b]>) ij.1 c.

(** Storing [b] at every position of a list, first to last: what the
    second loop of [add] does with [true] and the loop of [pop] with
    [false]. *)
Definition fill (c : Cells) (l : list Pos) (b : bool) : Cells :=
  foldl (fun c' p => set_cell c' p b) c l.

(** The offsets of a piece are pairwise distinct [int]s. *)
Definition distinct_offsets (o : Piece) : Prop :=
  NoDup (pos o) /\ Forall in_int_pos (pos o).

(** These notions are decidable, so that they can be checked on the
    catalog by evaluation. *)
#[local] Instance in_int_dec (z : Z) : Decision (in_int z).
Proof. unfold in_int. apply _. Defined.

#[local] Instance in_int_pos_dec (p : Pos) : Decision (in_int_pos p).
Proof. unfold in_int_pos. apply _. Defined.

#[local] Instance distinct_offsets_dec (o : Piece) : Decision (distinct_offsets o).
Proof. unfold distinct_offsets. apply _. Defined.

(** The sessions reached from a starting game [g0] by successful [add]s
    of catalog orientations and successful [pop]s. *)
Inductive reachable (g0 : Game) : Game -> Prop :=
| reach_start : reachable g0 g0
| reach_add (g g' : Game) (o : Piece) (anchor : Pos) :
    reachable g0 g -> catalog_orientation o ->
    add g o anchor = Returned (true, None) g' -> reachable g0 g'
| reach_pop (g g' : Game) :
    reachable g0 g -> pop g = Returned None g' -> reachable g0 g'.

(** The grid [c] is the grid [c0] with the images of the moves of a stack
    marked one after the other, each on cells that were inside the board,
    free, and pairwise distinct. *)
Inductive stacked (c0 : Cells) : list Move -> Cells -> Prop :=
| stacked_nil : stacked c0 [] c0
| stacked_snoc (ms : list Move) (c : Cells) (m : Move) :
    stacked c0 ms c ->
    NoDup (image m) ->
    Forall (fun p => out_of_bounds p = false /\ cell c p = false) (image m) ->
    stacked c0 (ms ++ [m]) (fill c (image m) true).

(** The game [parseBoard] makes of the default board: every cell taken. *)
Definition full_Game : Game :=
  mkGame [] (replicate 5 (replicate 11 true)) 55.

(** What holds of a session reached from the starting game [g0]: the
    grid has the shape of the array, the count is the number of [true]
    cells and the count of [g0] plus the image sizes of the stack, and the
    grid is the grid of [g0] with the stack marked on it. *)
Definition session_inv (g0 g : Game) : Prop :=
  wf_cells (cells g)
  /\ count g = Z.of_nat (true_cells (cells g))
  /\ count g = count g0 + image_sizes (moves g)
  /\ stacked (cells g0) (moves g) (cells g)
  /\ 0 <= count g0.

(** What holds of the game while [parseBoard] is at row [x], column [y]:
    the cells from there on are still [false]. *)
Definition parse_inv (x y : Z) (g : Game) : Prop :=
  wf_cells (cells g)
  /\ count g = Z.of_nat (true_cells (cells g))
  /\ moves g = []
  /\ forall p, out_of_bounds p = false ->
       x < p.1 \/ (p.1 = x /\ y <= p.2) -> cell (cells g) p = false.

(** A board without taken cells, and the game after ["red"] is placed
    on it at the origin. *)
Definition empty_board : string :=
  "00000000000,00000000000,00000000000,00000000000,00000000000".

Definition one_move_Game : Game :=
  mkGame [mkMove (mkPiece "red" [(0, 0); (0, 1); (0, 2); (0, 3); (1, 0)] false) (0, 0)]
         (fill (cells new_Game) [(0, 0); (0, 1); (0, 2); (0, 3); (1, 0)] true)
         5.

(** The catalog entry ["red"]. *)
Definition red_piece : Piece :=
  mkPiece "red" [(0, 0); (0, 1); (0, 2); (0, 3); (1, 0)] false.

(** Whether a call of [add] returned a non-nil error. *)
Definition returns_error (r : Outcome (bool * option string)) : bool :=
  match r with
  | Returned (_, Some _) _ => true
  | _ => false
  end.

(** ** The rest of the program: the piece lookup, the pool parser *)

(** [Piece{}], the zero value [getPiece] returns on a miss. *)
Definition zero_Piece : Piece := mkPiece "" [] false.

(** The loop of [getPiece] over the catalog: the first entry whose name
    is [n]. *)
Fixpoint getPiece_from (pcs : list Piece) (n : string) : Piece * bool :=
  match pcs with
  | [] => (zero_Piece, false)
  | pc :: pcs' => if String.eqb (name pc) n then (pc, true) else getPiece_from pcs' n
  end.

(** [func getPiece(name string) (Piece, bool)] *)
Definition getPiece (n : string) : Piece * bool := getPiece_from pieces n.

(** The loop of [parseAvailable]: [res] is the slice built so far; the
    first unknown name ends the loop with the error
    ["unknown piece: <name>"]. *)
Fixpoint parseAvailable_from (ps : list string) (res : list Piece) : string + list Piece :=
  match ps with
  | [] => inr res
  | p :: ps' =>
      match getPiece p with
      | (piece, true) => parseAvailable_from ps' (res ++ [piece])
      | (_, false) => inl ("unknown piece: " +:+ p)
      end
  end.

(** [func parseAvailable(a string) ([]Piece, error)] *)
Definition parseAvailable (a : string) : string + list Piece :=
  let ps := split_comma a in
  if (String.length a =? 0)%nat then inr []
  else parseAvailable_from ps [].

(** ** Notions used to state and prove the further properties *)

(** Equality of [int]s before the wrap-around: congruence modulo 2^64. *)
Definition cong64 (x y : Z) : Prop := x mod 2 ^ 64 = y mod 2 ^ 64.

(** The loop of [solve] over the candidates, with the recursive call on
    the shortened pool as a parameter; [solve_rev] on a non-empty pool is
    this loop (lemma [solve_rev_cons]). *)
Section SolveLoopDef.

Variable rec : Game -> Outcome (option string * list (list Move)).

Fixpoint solve_loop (cs : list (Pos * Piece)) (g : Game) (sent : list (list Move))
  : Outcome (option string * list (list Move)) :=
  match cs with
  | [] => Returned (None, sent) g
  | (p, piece) :: cs' =>
      match add g piece p with
      | Panicked => Panicked
      | Returned (_, Some err) g1 => Returned (Some err, sent) g1
      | Returned (false, None) g1 => solve_loop cs' g1 sent
      | Returned (true, None) g1 =>
          match rec g1 with
          | Panicked => Panicked
          | Returned (Some err, s) g2 => Returned (Some err, sent ++ s) g2
          | Returned (None, s) g2 =>
              match pop g2 with
              | Panicked => Panicked
              | Returned (Some err) g3 => Returned (Some err, sent ++ s) g3
              | Returned None g3 => solve_loop cs' g3 (sent ++ s)
              end
          end
      end
  end.

End SolveLoopDef.

(** A tiling from the game [g] with the pool [rps] (last entry of the
    source pool first): one orientation of every entry placed by a
    successful [add] at an anchor inside the board, one after the other,
    the count being [DimX * DimY] at the end.  The tiling is the move
    stack at that point. *)
Inductive tiling : Game -> list (list Piece) -> list Move -> Prop :=
| tiling_done (g : Game) :
    count g = DimX * DimY -> tiling g [] (moves g)
| tiling_place (g g1 : Game) (versions : list Piece) (rest : list (list Piece))
    (x y : Z) (piece : Piece) (sol : list Move) :
    0 <= x < DimX -> 0 <= y < DimY -> In piece versions ->
    add g piece (x, y) = Returned (true, None) g1 ->
    tiling g1 rest sol ->
    tiling g (versions :: rest) sol.

(** The two errors [solve] is written to report. *)
Definition search_error (e : string) : Prop :=
  e = "board is already full"%string
  \/ e = "no pieces left, but board is not full"%string.

(** All the cells the moves of a stack occupy, in order. *)
Definition images (ms : list Move) : list Pos := concat (image <$> ms).

(** The character of the board text at a position: whether it is
    ['x']. *)
Definition board_char (rows : list string) (p : Pos) : bool :=
  match rows !! Z.to_nat p.1 with
  | None => false
  | Some row =>
      match String.get (Z.to_nat p.2) row with
      | None => false
      | Some ch => Ascii.eqb ch "x"
      end
  end.

(** The game a goroutine of [solveP] starts from: the grid and the count
    of [g], no move. *)
Definition clone (g : Game) : Game := mkGame [] (cells g) (count g).

(** A board with the shape of ["turquoise"] left free in the corner, and
    the game it parses to. *)
Definition corner_board : string :=
  "00xxxxxxxxx,0xxxxxxxxxx,xxxxxxxxxxx,xxxxxxxxxxx,xxxxxxxxxxx".

Definition corner_Game : Game :=
  mkGame [] (fill (cells full_Game) [(0, 0); (0, 1); (1, 0)] false) 52.

Definition turquoise_piece : Piece :=
  mkPiece "turquoise" [(0, 0); (0, 1); (1, 0)] false.

(** The move stack holds only pieces of at most 5 offsets. *)
Definition small_moves (g : Game) : Prop :=
  Forall (fun m => (length (pos (MovePiece m)) <= 5)%nat) (moves g).

(** The two move lists the search sends on [corner_Game] with the pool
    of ["turquoise"] alone: the piece as it is, and the piece reflected
    in the diagonal, which covers the same cells. *)
Definition corner_solutions : list (list Move) :=
  [ [mkMove (mkPiece "turquoise" [(0, 0); (0, 1); (1, 0)] false) (0, 0)];
    [mkMove (mkPiece "turquoise" [(0, 0); (1, 0); (0, 1)] false) (0, 0)] ].

(** * Properties *)

(** ** Arithmetic of [int] *)

Lemma wrap_in_int (z : Z) : in_int z -> wrap z = z.
Proof.
  unfold in_int, int_min, int_max, wrap. intros Hz.
  rewrite Z.mod_small; lia.
Qed.

Lemma wrap_range (z : Z) : in_int (wrap z).
Proof.
  unfold in_int, int_min, int_max, wrap.
  pose proof (Z.mod_pos_bound (z + 2 ^ 63) (2 ^ 64)). lia.
Qed.

Lemma wrap_add_sub (c n : Z) : in_int c -> wrap (wrap (c + n) - n) = c.
Proof.
  unfold in_int, int_min, int_max, wrap. intros Hc.
  replace ((c + n + 2 ^ 63) mod 2 ^ 64 - 2 ^ 63 - n + 2 ^ 63)
    with ((c + n + 2 ^ 63) mod 2 ^ 64 - n) by lia.
  rewrite Zminus_mod_idemp_l.
  replace (c + n + 2 ^ 63 - n) with (c + 2 ^ 63) by lia.
  rewrite Z.mod_small; lia.
Qed.

(** ** The loops that append are maps *)

Lemma foldl_snoc_map {A B : Type} (f : A -> B) (l : list A) (acc : list B) :
  foldl (fun res a => res ++ [f a]) acc l = acc ++ map f l.
Proof.
  revert acc. induction l as [|a l IH]; intros acc; simpl.
  - by rewrite app_nil_r.
  - rewrite IH. by rewrite <- app_assoc.
Qed.

Lemma pos_transform (p : Piece) (m : Matrix) :
  pos (transform p m) = map (Transform m) (pos p).
Proof. unfold transform; simpl. apply (foldl_snoc_map (Transform m)). Qed.

Lemma image_map (m : Move) :
  image m = map (fun p => translate p (Translate m)) (pos (MovePiece m)).
Proof. unfold image. apply (foldl_snoc_map (fun p => translate p (Translate m))). Qed.

Lemma length_image (m : Move) : length (image m) = length (pos (MovePiece m)).
Proof. rewrite image_map. apply length_map. Qed.

Lemma allVersions_from_asym (p : Piece) (t : Z) (ms : list Matrix) (res : list Piece) :
  sym p = false -> allVersions_from p t ms res = res ++ map (transform p) ms.
Proof.
  intros Hs. revert t res. induction ms as [|m ms IH]; intros t res; simpl.
  - by rewrite app_nil_r.
  - rewrite Hs; simpl. rewrite IH. by rewrite <- app_assoc.
Qed.

Lemma allVersions_from_sym (p : Piece) (t : Z) (ms : list Matrix) (res : list Piece) :
  sym p = true -> 0 <= t ->
  allVersions_from p t ms res = res ++ map (transform p) (take (Z.to_nat (4 - t)) ms).
Proof.
  intros Hs. revert t res. induction ms as [|m ms IH]; intros t res Ht; simpl.
  - rewrite take_nil. by rewrite app_nil_r.
  - rewrite Hs; simpl. destruct (Z.geb_spec t 4) as [Hge|Hlt].
    + replace (Z.to_nat (4 - t)) with 0%nat by lia. by rewrite app_nil_r.
    + rewrite IH by lia.
      replace (Z.to_nat (4 - t)) with (S (Z.to_nat (4 - (t + 1)))) by lia.
      simpl. by rewrite <- app_assoc.
Qed.

Lemma allVersions_asym (p : Piece) :
  sym p = false -> allVersions p = map (transform p) tx.
Proof. intros Hs. unfold allVersions. by rewrite allVersions_from_asym. Qed.

Lemma allVersions_sym (p : Piece) :
  sym p = true -> allVersions p = map (transform p) (take 4 tx).
Proof. intros Hs. unfold allVersions. by rewrite allVersions_from_sym. Qed.

(** ** The transformations *)

Example tx_values :
  tx = [ ((1, 0), (0, 1)); ((1, 0), (0, -1)); ((0, 1), (-1, 0)); ((0, -1), (-1, 0));
         ((-1, 0), (0, -1)); ((0, -1), (1, 0)); ((-1, 0), (0, 1)); ((0, 1), (1, 0)) ].
Proof. reflexivity. Qed.

(** C8: [tx] contains [Identity], [Identity] maps every position (of
    [int] components) to itself, and the product of any two members of
    [tx] is again a member of [tx]. *)
Theorem tx_identity_and_closed (p : Pos) (a b : Matrix) :
  in_int_pos p -> In a tx -> In b tx ->
  In Identity tx /\ Transform Identity p = p /\ In (Mult a b) tx.
Proof.
  intros [Hp1 Hp2] Ha Hb. split; [by left|]. split.
  - destruct p as [x y]; simpl in Hp1, Hp2.
    cbv [Transform Identity m00 m01 m10 m11 fst snd].
    rewrite !Z.mul_1_l, !Z.mul_0_l. change (wrap 0) with 0.
    rewrite Z.add_0_r, Z.add_0_l.
    rewrite (wrap_in_int x Hp1), (wrap_in_int y Hp2).
    by rewrite (wrap_in_int x Hp1), (wrap_in_int y Hp2).
  - rewrite tx_values in Ha, Hb. simpl in Ha, Hb.
    destruct Ha as [<-|[<-|[<-|[<-|[<-|[<-|[<-|[<-|[]]]]]]]]];
      destruct Hb as [<-|[<-|[<-|[<-|[<-|[<-|[<-|[<-|[]]]]]]]]];
      vm_compute; tauto.
Qed.

Lemma tx_identity_and_closed_witness :
  In Identity tx /\ Transform Identity (2, 3) = (2, 3) /\ In (Mult Mirror Rot90) tx.
Proof.
  apply (tx_identity_and_closed (2, 3) Mirror Rot90).
  - split; vm_compute; split; discriminate.
  - vm_compute; tauto.
  - vm_compute; tauto.
Defined.

(** ** The orientations of a piece *)

(** C4: [allVersions] returns 8 orientations, one per transformation and
    in the order of [tx], for a piece that is not symmetric, and 4 for a
    symmetric one. *)
Theorem allVersions_length (p : Piece) :
  (if sym p then allVersions p = map (transform p) (take 4 tx)
   else allVersions p = map (transform p) tx)
  /\ length (allVersions p) = (if sym p then 4 else 8)%nat.
Proof.
  destruct (sym p) eqn:Hs.
  - rewrite (allVersions_sym p Hs). split; [done|]. by rewrite length_map.
  - rewrite (allVersions_asym p Hs). split; [done|]. by rewrite length_map.
Qed.




(** ** The ends of the search *)

(** C7: with an empty pool [solve] succeeds, sending the move stack as a
    solution, exactly when the count equals [DimX * DimY]; otherwise it
    returns the error of a pool exhausted too early.  The game is left as
    it was. *)
Theorem solve_empty_pool (g : Game) :
  solve g [] =
    (if count g =? DimX * DimY
     then Returned (None, [moves g]) g
     else Returned (Some "no pieces left, but board is not full"%string, []) g).
Proof.
  unfold solve; simpl. by destruct (count g =? DimX * DimY).
Qed.

(** C10: with an empty pool [solveP] returns the nil channel: no channel
    is made, no goroutine is started and nothing is ever closed. *)
Theorem solveP_empty_pool (g : Game) :
  solveP g [] = NilChan /\ solveP g [] <> Chan [].
Proof. split; [reflexivity|discriminate]. Qed.

(** ** The grid *)

Lemma cell_idx (c : Cells) (p : Pos) : cell c p = default false (cell_opt c (idx p)).
Proof. reflexivity. Qed.

Lemma set_cell_put (c : Cells) (p : Pos) (b : bool) : set_cell c p b = put c (idx p) b.
Proof. reflexivity. Qed.

Lemma cell_opt_put (c : Cells) (ij ij' : nat * nat) (b : bool) :
  cell_opt (put c ij b) ij' =
    if decide (ij = ij') then (fun _ => b) <$> cell_opt c ij' else cell_opt c ij'.
Proof.
  destruct ij as [i j], ij' as [i' j']. unfold cell_opt, put; cbn [fst snd].
  rewrite list_lookup_alter. destruct (decide (i = i')) as [->|Hi].
  - destruct (c !! i') as [row|] eqn:Hrow; simpl.
    + rewrite list_lookup_insert.
      destruct (decide ((i', j) = (i', j'))) as [E|E].
      * injection E as ->. destruct (decide (j' < length row)%nat) as [Hlt|Hge].
        -- rewrite decide_True by done.
           by destruct (lookup_lt_is_Some_2 row j' Hlt) as [x ->].
        -- rewrite decide_False by tauto.
           by rewrite (lookup_ge_None_2 row j') by lia.
      * rewrite decide_False; [done|]. intros [-> _]. by apply E.
    + by destruct (decide _).
  - rewrite decide_False by congruence. done.
Qed.

Lemma shape_put (c : Cells) (ij : nat * nat) (b : bool) :
  length <$> put c ij b = length <$> c.
Proof.
  unfold put. apply list_eq. intros k. rewrite !list_lookup_fmap, list_lookup_alter.
  destruct (decide (ij.1 = k)) as [->|]; [|done].
  destruct (c !! k); simpl; [|done]. by rewrite length_insert.
Qed.

Lemma shape_fill (c : Cells) (l : list Pos) (b : bool) :
  length <$> fill c l b = length <$> c.
Proof.
  unfold fill. revert c. induction l as [|p l IH]; intros c; simpl; [done|].
  rewrite IH, set_cell_put. apply shape_put.
Qed.

Lemma grid_ext (c1 c2 : Cells) :
  length <$> c1 = length <$> c2 ->
  (forall ij, cell_opt c1 ij = cell_opt c2 ij) ->
  c1 = c2.
Proof.
  revert c2. induction c1 as [|r1 c1 IH]; intros [|r2 c2] Hs He; try done.
  simpl in Hs. injection Hs as Hlen Hs. f_equal.
  - apply list_eq. intros j. exact (He (0%nat, j)).
  - apply IH; [done|]. intros [i j]. exact (He (S i, j)).
Qed.

Lemma cell_opt_fill (c : Cells) (l : list Pos) (b : bool) (ij : nat * nat) :
  cell_opt (fill c l b) ij =
    if decide (ij ∈ idx <$> l) then (fun _ => b) <$> cell_opt c ij else cell_opt c ij.
Proof.
  unfold fill. revert c. induction l as [|p l IH]; intros c.
  - destruct (decide (ij ∈ idx <$> [])) as [H|]; [|done].
    by apply elem_of_nil in H.
  - cbn [foldl]. rewrite IH, set_cell_put, cell_opt_put.
    destruct (decide (ij ∈ idx <$> l)) as [Hin|Hnin].
    + destruct (decide (ij ∈ idx <$> p :: l)) as [_|Hn].
      * destruct (decide (idx p = ij)); [|done]. by destruct (cell_opt c ij).
      * exfalso. apply Hn. rewrite fmap_cons. by right.
    + destruct (decide (idx p = ij)) as [<-|Hne].
      * destruct (decide (idx p ∈ idx <$> p :: l)) as [_|Hn]; [done|].
        exfalso. apply Hn. rewrite fmap_cons. by left.
      * destruct (decide (ij ∈ idx <$> p :: l)) as [Hi|_]; [|done].
        rewrite fmap_cons in Hi. apply elem_of_cons in Hi as [?|?]; congruence.
Qed.

(** Clearing the cells that were just marked gives the grid back,
    whatever its shape, when the cells read [false] before. *)
Lemma fill_restore (c : Cells) (l : list Pos) :
  Forall (fun p => cell c p = false) l ->
  fill (fill c l true) l false = c.
Proof.
  intros Hfree. apply grid_ext.
  - by rewrite !shape_fill.
  - intros ij. rewrite !cell_opt_fill.
    destruct (decide (ij ∈ idx <$> l)) as [Hin|]; [|done].
    apply list_elem_of_fmap in Hin as (p & -> & Hp).
    rewrite Forall_forall in Hfree. specialize (Hfree p Hp).
    rewrite cell_idx in Hfree.
    destruct (cell_opt c (idx p)) as [[]|]; simpl in *; congruence.
Qed.

(** ** The two loops of [add] and the loop of [pop] *)

Lemma image_fmap (piece : Piece) (anchor : Pos) :
  image (mkMove piece anchor) = (fun p => translate p anchor) <$> pos piece.
Proof. apply image_map. Qed.

Lemma add_scan_done (c : Cells) (anchor : Pos) (ps : list Pos) :
  forall (i : nat) (img img' : list Pos),
  add_scan c anchor i ps img = ScanDone img' ->
  (i <= 5)%nat -> length img = 5%nat ->
  (i + length ps <= 5)%nat
  /\ (forall k p, ps !! k = Some p -> img' !! (i + k)%nat = Some (translate p anchor))
  /\ (forall j, (j < i)%nat -> img' !! j = img !! j)
  /\ Forall (fun p => out_of_bounds (translate p anchor) = false
                      /\ cell c (translate p anchor) = false) ps.
Proof.
  induction ps as [|a ps IH]; intros i img img' H Hi Hlen; cbn [add_scan] in H.
  - injection H as <-. split; [simpl; lia|]. split; [|by split].
    intros k p Hk. by rewrite lookup_nil in Hk.
  - destruct (out_of_bounds (translate a anchor)) eqn:Hob; [discriminate|].
    destruct (cell c (translate a anchor)) eqn:Hc; [discriminate|].
    destruct (5 <=? i)%nat eqn:Hle; [discriminate|].
    apply Nat.leb_gt in Hle.
    apply IH in H as (H1 & H2 & H3 & H4); [|lia|by rewrite length_insert].
    split; [simpl; lia|]. split; [|split].
    + intros [|k] p Hk; simpl in Hk.
      * injection Hk as <-. rewrite Nat.add_0_r, H3 by lia.
        apply list_lookup_insert_eq. lia.
      * replace (i + S k)%nat with (S i + k)%nat by lia. by apply H2.
    + intros j Hj. rewrite H3 by lia. apply list_lookup_insert_ne. lia.
    + by constructor.
Qed.

Lemma add_scan_reject (c : Cells) (anchor : Pos) (ps : list Pos) :
  forall (i : nat) (img : list Pos),
  (i + length ps <= 5)%nat ->
  Exists (fun p => out_of_bounds (translate p anchor) = true
                   \/ cell c (translate p anchor) = true) ps ->
  add_scan c anchor i ps img = ScanReject.
Proof.
  induction ps as [|a ps IH]; intros i img Hlen Hex; cbn [add_scan].
  - by apply Exists_nil in Hex.
  - simpl in Hlen.
    destruct (out_of_bounds (translate a anchor)) eqn:Hob; [done|].
    destruct (cell c (translate a anchor)) eqn:Hc; [done|].
    apply Exists_cons in Hex as [[?|?]|Hex]; [congruence..|].
    destruct (Nat.leb_spec 5 i); [lia|]. apply IH; [lia|done].
Qed.

Lemma add_scan_no_panic (c : Cells) (anchor : Pos) (ps : list Pos) :
  forall (i : nat) (img : list Pos),
  (i + length ps <= 5)%nat -> add_scan c anchor i ps img <> ScanPanic.
Proof.
  induction ps as [|a ps IH]; intros i img Hlen; cbn [add_scan]; [done|].
  simpl in Hlen.
  destruct (out_of_bounds (translate a anchor)); [done|].
  destruct (cell c (translate a anchor)); [done|].
  destruct (Nat.leb_spec 5 i); [lia|]. apply IH. lia.
Qed.

Lemma add_mark_seq (img : list Pos) (l : list Pos) :
  forall (c : Cells) (i : nat),
  (forall k p, l !! k = Some p -> img !! (i + k)%nat = Some p) ->
  add_mark c img (seq i (length l)) = Some (fill c l true).
Proof.
  induction l as [|p l IH]; intros c i H; simpl; [done|].
  pose proof (H 0%nat p eq_refl) as H0. rewrite Nat.add_0_r in H0. rewrite H0.
  apply IH. intros k q Hk. replace (S i + k)%nat with (i + S k)%nat by lia.
  by apply H.
Qed.

Lemma add_mark_after_scan (c : Cells) (anchor : Pos) (ps img' : list Pos) :
  add_scan c anchor 0 ps (replicate 5 (0, 0)) = ScanDone img' ->
  add_mark c img' (seq 0 (length ps))
  = Some (fill c ((fun p => translate p anchor) <$> ps) true).
Proof.
  intros H. apply add_scan_done in H as (_ & H & _); [|lia|done].
  rewrite <- (length_fmap (fun p => translate p anchor) ps).
  apply add_mark_seq. intros k p Hk. rewrite list_lookup_fmap in Hk.
  destruct (ps !! k) as [q|] eqn:Hq; [|done]. injection Hk as <-. by apply H.
Qed.

Lemma pop_clear_fill (anchor : Pos) (ps : list Pos) :
  forall c : Cells,
  Forall (fun p => out_of_bounds (translate p anchor) = false) ps ->
  pop_clear c anchor ps = Some (fill c ((fun p => translate p anchor) <$> ps) false).
Proof.
  induction ps as [|a ps IH]; intros c H; simpl; [done|].
  apply Forall_cons in H as [-> H]. by apply IH.
Qed.

(** What a successful [add] has checked and done. *)
Lemma add_placed_inv (g g' : Game) (piece : Piece) (anchor : Pos) :
  add g piece anchor = Returned (true, None) g' ->
  wrap (count g + Z.of_nat (length (pos piece))) <= DimX * DimY
  /\ (length (pos piece) <= 5)%nat
  /\ Forall (fun p => out_of_bounds p = false /\ cell (cells g) p = false)
            (image (mkMove piece anchor))
  /\ g' = mkGame (moves g ++ [mkMove piece anchor])
                 (fill (cells g) (image (mkMove piece anchor)) true)
                 (wrap (count g + Z.of_nat (length (pos piece)))).
Proof.
  unfold add. intros H.
  destruct (Z.gtb_spec (wrap (count g + Z.of_nat (length (pos piece)))) (DimX * DimY))
    as [Hgt|Hle]; [discriminate|].
  destruct (add_scan (cells g) anchor 0 (pos piece) (replicate 5 (0, 0)))
    as [| |img] eqn:Hscan; try discriminate.
  rewrite (add_mark_after_scan _ _ _ _ Hscan) in H. injection H as <-.
  apply add_scan_done in Hscan as (Hlen & _ & _ & Hfree); [|lia|done].
  rewrite image_fmap. split; [done|]. split; [lia|]. split; [|done].
  by apply Forall_fmap.
Qed.

(** ** [add] and [pop] *)

Lemma parseBoard_default : parseBoard default_board = inr full_Game.
Proof. reflexivity. Qed.

(** C1: when [add] has placed a piece, the [pop] that follows succeeds
    and gives back the game as it was before the [add]: the same grid,
    the same count and the same move stack. *)
Theorem add_pop_roundtrip (g g' : Game) (piece : Piece) (anchor : Pos) :
  in_int (count g) ->
  add g piece anchor = Returned (true, None) g' ->
  pop g' = Returned None g
  /\ (forall g'', pop g' = Returned None g'' ->
        cells g'' = cells g /\ count g'' = count g).
Proof.
  intros Hc Hadd.
  assert (Hpop : pop g' = Returned None g).
  { apply add_placed_inv in Hadd as (_ & _ & Hfree & ->).
    unfold pop; cbn [moves cells count]. rewrite last_snoc. cbn [MovePiece Translate].
    rewrite pop_clear_fill.
    - rewrite <- image_fmap, fill_restore by (eapply Forall_impl; [exact Hfree|by intros ? []]).
      rewrite length_app; cbn [length].
      replace (length (moves g) + 1 - 1)%nat with (length (moves g)) by lia.
      rewrite take_app_length, wrap_add_sub by done. by destruct g.
    - rewrite image_fmap in Hfree. apply Forall_fmap in Hfree.
      eapply Forall_impl; [exact Hfree|]. by intros ? []. }
  split; [done|]. intros g'' H. rewrite Hpop in H. by injection H as <-.
Qed.

Lemma add_pop_roundtrip_witness :
  pop (mkGame [mkMove (mkPiece "turquoise" [(0, 0); (0, 1); (1, 0)] false) (0, 0)]
              (fill (cells new_Game) [(0, 0); (0, 1); (1, 0)] true) 3)
  = Returned None new_Game
  /\ (forall g'',
        pop (mkGame [mkMove (mkPiece "turquoise" [(0, 0); (0, 1); (1, 0)] false) (0, 0)]
                    (fill (cells new_Game) [(0, 0); (0, 1); (1, 0)] true) 3)
        = Returned None g'' ->
        cells g'' = cells new_Game /\ count g'' = count new_Game).
Proof.
  apply (add_pop_roundtrip new_Game _
           (mkPiece "turquoise" [(0, 0); (0, 1); (1, 0)] false) (0, 0)).
  - vm_compute. split; discriminate.
  - vm_compute. reflexivity.
Defined.

(** C5, as the claim has it, fails: on a full board the budget test comes
    first, and a piece lying on taken cells makes [add] return the error
    instead of a plain rejection. *)
Lemma add_overlap_on_full_board_errors :
  ~ (forall (g : Game) (piece : Piece) (anchor q : Pos),
       wf_cells (cells g) -> count g = Z.of_nat (true_cells (cells g)) ->
       In q (image (mkMove piece anchor)) ->
       out_of_bounds q = true \/ cell (cells g) q = true ->
       add g piece anchor = Returned (false, None) g).
Proof.
  intros H.
  specialize (H full_Game (mkPiece "turquoise" [(0, 0); (0, 1); (1, 0)] false)
                (0, 0) (0, 0)).
  assert (Hwf : wf_cells (cells full_Game)).
  { split; [reflexivity|]. vm_compute. repeat constructor. }
  specialize (H Hwf eq_refl (or_introl eq_refl) (or_intror eq_refl)).
  vm_compute in H. discriminate.
Qed.

(** C5, amended: when the budget test passes and the piece has at most 5
    offsets (as every orientation of a catalog piece has), a cell of the
    image outside the board or already taken makes [add] return
    not-placed without error and leave the game as it was. *)
Theorem add_rejects_unchanged (g : Game) (piece : Piece) (anchor q : Pos) :
  wrap (count g + Z.of_nat (length (pos piece))) <= DimX * DimY ->
  (length (pos piece) <= 5)%nat ->
  In q (image (mkMove piece anchor)) ->
  out_of_bounds q = true \/ cell (cells g) q = true ->
  add g piece anchor = Returned (false, None) g.
Proof.
  intros Hbudget Hlen Hq Hbad. unfold add.
  destruct (Z.gtb_spec (wrap (count g + Z.of_nat (length (pos piece)))) (DimX * DimY))
    as [Hgt|_]; [lia|].
  rewrite add_scan_reject; [done|simpl; lia|].
  rewrite image_fmap in Hq. apply list_elem_of_In, list_elem_of_fmap in Hq as (p & -> & Hp).
  apply Exists_exists. by exists p.
Qed.

Lemma add_rejects_unchanged_witness :
  add (mkGame [] (fill (cells new_Game) [(0, 1)] true) 1)
      (mkPiece "turquoise" [(0, 0); (0, 1); (1, 0)] false) (0, 0)
  = Returned (false, None) (mkGame [] (fill (cells new_Game) [(0, 1)] true) 1).
Proof.
  apply (add_rejects_unchanged (mkGame [] (fill (cells new_Game) [(0, 1)] true) 1)
           (mkPiece "turquoise" [(0, 0); (0, 1); (1, 0)] false) (0, 0) (0, 1)).
  - vm_compute. discriminate.
  - vm_compute. lia.
  - vm_compute. tauto.
  - right. reflexivity.
Defined.

(** C6: [add] returns an error exactly when the count plus the number of
    offsets of the piece exceeds [DimX * DimY] (the sum being an [int]);
    the test comes first, so that the error is returned whatever the
    image is, with the game untouched. *)
Theorem add_error_iff_budget (g : Game) (piece : Piece) (anchor : Pos) :
  in_int (count g + Z.of_nat (length (pos piece))) ->
  (returns_error (add g piece anchor) = true
   <-> count g + Z.of_nat (length (pos piece)) > DimX * DimY)
  /\ (count g + Z.of_nat (length (pos piece)) > DimX * DimY ->
      add g piece anchor = Returned (false, Some "board is already full"%string) g).
Proof.
  intros Hint. unfold add. rewrite (wrap_in_int _ Hint).
  destruct (Z.gtb_spec (count g + Z.of_nat (length (pos piece))) (DimX * DimY))
    as [Hgt|Hle].
  - split; [|done]. simpl. split; [lia|done].
  - split; [|lia]. split; [|lia]. intros H. exfalso.
    destruct (add_scan _ _ _ _ _); try discriminate.
    destruct (add_mark _ _ _); discriminate.
Qed.

Lemma add_error_iff_budget_witness :
  (returns_error (add full_Game (mkPiece "turquoise" [(0, 0); (0, 1); (1, 0)] false) (7, 20))
   = true
   <-> count full_Game + Z.of_nat 3 > DimX * DimY)
  /\ (count full_Game + Z.of_nat 3 > DimX * DimY ->
      add full_Game (mkPiece "turquoise" [(0, 0); (0, 1); (1, 0)] false) (7, 20)
      = Returned (false, Some "board is already full"%string) full_Game).
Proof.
  apply (add_error_iff_budget full_Game
           (mkPiece "turquoise" [(0, 0); (0, 1); (1, 0)] false) (7, 20)).
  vm_compute. split; discriminate.
Defined.

(** ** Catalog pieces and the image buffer *)

Lemma pieces_at_most_5 (q : Piece) : In q pieces -> (length (pos q) <= 5)%nat.
Proof.
  intros H. simpl in H.
  repeat (destruct H as [<-|H]; [simpl; lia|]). destruct H.
Qed.

Lemma length_pos_transform (p : Piece) (m : Matrix) :
  length (pos (transform p m)) = length (pos p).
Proof. rewrite pos_transform. apply length_map. Qed.

Lemma allVersions_transform (q o : Piece) :
  In o (allVersions q) -> exists m, In m tx /\ o = transform q m.
Proof.
  intros H. destruct (sym q) eqn:Hs.
  - rewrite (allVersions_sym q Hs) in H. apply in_map_iff in H as (m & <- & Hm).
    exists m. split; [|done]. apply list_elem_of_In.
    apply list_elem_of_In in Hm. by apply (subseteq_take 4 tx).
  - rewrite (allVersions_asym q Hs) in H. apply in_map_iff in H as (m & <- & Hm).
    by exists m.
Qed.

Lemma add_no_panic (g : Game) (piece : Piece) (anchor : Pos) :
  (length (pos piece) <= 5)%nat -> add g piece anchor <> Panicked.
Proof.
  intros Hlen. unfold add.
  destruct (_ >? _); [done|].
  destruct (add_scan (cells g) anchor 0 (pos piece) (replicate 5 (0, 0)))
    as [| |img] eqn:Hscan; [|done|].
  - by apply add_scan_no_panic in Hscan.
  - by rewrite (add_mark_after_scan _ _ _ _ Hscan).
Qed.

(** C9: a catalog piece has at most 5 offsets, a transformation keeps
    their number, and so [add] never stores outside its 5-element image
    buffer (it does not panic) on an orientation of a catalog piece. *)
Theorem catalog_image_buffer_in_bounds
    (q o : Piece) (m : Matrix) (g : Game) (anchor : Pos) :
  In q pieces -> In o (allVersions q) ->
  (length (pos q) <= 5)%nat
  /\ length (pos (transform q m)) = length (pos q)
  /\ (length (pos o) <= 5)%nat
  /\ add g o anchor <> Panicked.
Proof.
  intros Hq Ho. pose proof (pieces_at_most_5 q Hq) as H5.
  split; [done|]. split; [apply length_pos_transform|].
  apply allVersions_transform in Ho as (m' & _ & ->).
  assert (Hlen : (length (pos (transform q m')) <= 5)%nat)
    by (by rewrite length_pos_transform).
  split; [done|]. by apply add_no_panic.
Qed.

Lemma catalog_image_buffer_in_bounds_witness :
  (length (pos red_piece) <= 5)%nat
  /\ length (pos (transform red_piece Rot90)) = length (pos red_piece)
  /\ (length (pos (transform red_piece Mirror)) <= 5)%nat
  /\ add new_Game (transform red_piece Mirror) (0, 3) <> Panicked.
Proof.
  apply (catalog_image_buffer_in_bounds
           red_piece (transform red_piece Mirror) Rot90 new_Game (0, 3)).
  - vm_compute. tauto.
  - vm_compute. tauto.
Defined.

(** ** Counting the cells *)

Lemma wf_cells_shape (c1 c2 : Cells) :
  length <$> c1 = length <$> c2 -> wf_cells c1 -> wf_cells c2.
Proof.
  intros Hs [Hlen Hrows]. split.
  - rewrite <- Hlen, <- (length_fmap length c2), <- Hs. by rewrite length_fmap.
  - apply (Forall_fmap length (fun k => k = Z.to_nat DimY) c2).
    rewrite <- Hs. by apply Forall_fmap.
Qed.

Lemma wf_cells_fill (c : Cells) (l : list Pos) (b : bool) :
  wf_cells c -> wf_cells (fill c l b).
Proof. apply wf_cells_shape. by rewrite shape_fill. Qed.

Lemma out_of_bounds_false (p : Pos) :
  out_of_bounds p = false <-> (0 <= p.1 < DimX /\ 0 <= p.2 < DimY).
Proof.
  unfold out_of_bounds.
  destruct (Z.ltb_spec p.1 0), (Z.geb_spec p.1 DimX),
    (Z.ltb_spec p.2 0), (Z.geb_spec p.2 DimY); simpl; split; intros; (done || lia).
Qed.

Lemma wf_cell_opt (c : Cells) (p : Pos) :
  wf_cells c -> out_of_bounds p = false -> cell_opt c (idx p) = Some (cell c p).
Proof.
  intros [Hlen Hrows] [Hx Hy]%out_of_bounds_false. rewrite cell_idx.
  unfold cell_opt, idx; cbn [fst snd].
  destruct (lookup_lt_is_Some_2 c (Z.to_nat p.1)) as [row Hrow]; [lia|].
  rewrite Hrow; simpl. rewrite Forall_forall in Hrows.
  assert (Hr : length row = Z.to_nat DimY)
    by (apply Hrows; by eapply list_elem_of_lookup_2).
  destruct (lookup_lt_is_Some_2 row (Z.to_nat p.2)) as [b Hb]; [lia|].
  by rewrite Hb.
Qed.

Lemma idx_inj (p q : Pos) :
  out_of_bounds p = false -> out_of_bounds q = false -> idx p = idx q -> p = q.
Proof.
  intros [? ?]%out_of_bounds_false [? ?]%out_of_bounds_false.
  destruct p as [p1 p2], q as [q1 q2]. unfold idx; simpl in *.
  intros [= E1 E2]. f_equal; lia.
Qed.

Lemma row_count_insert (row : list bool) (j : nat) :
  row !! j = Some false -> row_count (<[j := true]> row) = S (row_count row).
Proof.
  revert j. induction row as [|b row IH]; intros [|j] H; simpl in *; try done.
  - by injection H as ->.
  - rewrite (IH j H). lia.
Qed.

Lemma row_count_le (row : list bool) : (row_count row <= length row)%nat.
Proof. induction row as [|[] row IH]; simpl; lia. Qed.

Lemma true_cells_put (c : Cells) (ij : nat * nat) :
  cell_opt c ij = Some false -> true_cells (put c ij true) = S (true_cells c).
Proof.
  destruct ij as [i j]. unfold cell_opt, put; cbn [fst snd].
  revert i. induction c as [|row c IH]; intros [|i] H; try done.
  - change (true_cells (<[j := true]> row :: c) = S (true_cells (row :: c))).
    simpl in H |- *. rewrite row_count_insert by done. lia.
  - change (true_cells (row :: alter (<[j := true]>) i c) = S (true_cells (row :: c))).
    cbn [true_cells]. rewrite (IH i H). lia.
Qed.

Lemma true_cells_le (c : Cells) :
  wf_cells c -> Z.of_nat (true_cells c) <= DimX * DimY.
Proof.
  intros [Hlen Hrows].
  assert (H : (true_cells c <= length c * Z.to_nat DimY)%nat).
  { clear Hlen. generalize dependent (Z.to_nat DimY). intros n Hrows.
    induction Hrows as [|row c Hrow _ IH]; cbn [true_cells length]; [lia|].
    pose proof (row_count_le row). lia. }
  rewrite Hlen in H. unfold DimX, DimY in *. lia.
Qed.

Lemma true_cells_fill (l : list Pos) :
  forall c : Cells,
  NoDup (idx <$> l) ->
  Forall (fun p => cell_opt c (idx p) = Some false) l ->
  true_cells (fill c l true) = (true_cells c + length l)%nat.
Proof.
  unfold fill. induction l as [|p l IH]; intros c Hnd Hfree; simpl; [lia|].
  rewrite fmap_cons in Hnd. apply NoDup_cons in Hnd as [Hp Hnd].
  apply Forall_cons in Hfree as [Hp0 Hfree].
  rewrite IH; [|done|].
  - rewrite set_cell_put, true_cells_put by done. lia.
  - rewrite Forall_forall in Hfree |- *. intros q Hq.
    rewrite set_cell_put, cell_opt_put, decide_False; [by apply Hfree|].
    intros E. apply Hp. rewrite E. by apply list_elem_of_fmap_2.
Qed.

(** Marking an image that lies inside the board on free cells, without
    repetition, adds its size to the number of [true] cells. *)
Lemma true_cells_mark (c : Cells) (img : list Pos) :
  wf_cells c -> NoDup img ->
  Forall (fun p => out_of_bounds p = false /\ cell c p = false) img ->
  true_cells (fill c img true) = (true_cells c + length img)%nat.
Proof.
  intros Hwf Hnd Hfree. rewrite Forall_forall in Hfree. apply true_cells_fill.
  - apply NoDup_fmap_2_strong; [|done]. intros p q Hp Hq.
    apply idx_inj; by apply Hfree.
  - apply Forall_forall. intros p Hp. destruct (Hfree p Hp) as [Hob Hc].
    by rewrite wf_cell_opt, Hc.
Qed.

(** ** The images of catalog orientations *)

Lemma catalog_distinct_offsets (o : Piece) :
  catalog_orientation o -> distinct_offsets o.
Proof.
  intros (q & Hq & Ho).
  assert (H : Forall (fun q => Forall distinct_offsets (allVersions q)) pieces).
  { apply (bool_decide_unpack _). by vm_compute. }
  rewrite Forall_forall in H. apply list_elem_of_In in Hq, Ho.
  specialize (H q Hq). rewrite Forall_forall in H. by apply H.
Qed.

Lemma wrap_add_inj (x y a : Z) :
  in_int x -> in_int y -> wrap (x + a) = wrap (y + a) -> x = y.
Proof.
  unfold in_int, int_min, int_max, wrap. intros Hx Hy H.
  pose proof (Z.mod_eq (x + a + 2 ^ 63) (2 ^ 64) ltac:(lia)) as Ex.
  pose proof (Z.mod_eq (y + a + 2 ^ 63) (2 ^ 64) ltac:(lia)) as Ey.
  lia.
Qed.

Lemma translate_inj (p q anchor : Pos) :
  in_int_pos p -> in_int_pos q -> translate p anchor = translate q anchor -> p = q.
Proof.
  destruct p as [p1 p2], q as [q1 q2]. unfold in_int_pos, translate; simpl.
  intros [? ?] [? ?] [= E1 E2]. f_equal; by eapply wrap_add_inj.
Qed.

Lemma image_NoDup (o : Piece) (anchor : Pos) :
  distinct_offsets o -> NoDup (image (mkMove o anchor)).
Proof.
  intros [Hnd Hint]. rewrite image_fmap. rewrite Forall_forall in Hint.
  apply NoDup_fmap_2_strong; [|done]. intros p q Hp Hq.
  apply translate_inj; by apply Hint.
Qed.

Lemma image_sizes_snoc (ms : list Move) (m : Move) :
  image_sizes (ms ++ [m]) = image_sizes ms + Z.of_nat (length (image m)).
Proof. unfold image_sizes. induction ms as [|m' ms IH]; simpl in *; lia. Qed.

Lemma image_sizes_nonneg (ms : list Move) : 0 <= image_sizes ms.
Proof. unfold image_sizes. induction ms as [|m' ms IH]; simpl in *; lia. Qed.

(** ** The session invariant *)

Lemma session_inv_add (g0 g g' : Game) (o : Piece) (anchor : Pos) :
  session_inv g0 g -> distinct_offsets o ->
  add g o anchor = Returned (true, None) g' -> session_inv g0 g'.
Proof.
  intros (Hwf & Hcnt & Hsum & Hst & H0) Ho Hadd.
  apply add_placed_inv in Hadd as (Hbudget & Hlen & Hfree & ->).
  pose proof (true_cells_le _ Hwf) as Hle.
  pose proof (image_NoDup o anchor Ho) as Hnd.
  assert (Hw : wrap (count g + Z.of_nat (length (pos o)))
               = count g + Z.of_nat (length (pos o))).
  { apply wrap_in_int. unfold in_int, int_min, int_max, DimX, DimY in *. lia. }
  unfold session_inv; cbn [moves cells count]. rewrite Hw.
  split; [by apply wf_cells_fill|]. split; [|split; [|split]].
  - rewrite true_cells_mark, length_image by done. cbn [MovePiece]. lia.
  - rewrite image_sizes_snoc, length_image. cbn [MovePiece]. lia.
  - by constructor.
  - done.
Qed.

Lemma session_inv_pop (g0 g g' : Game) :
  session_inv g0 g -> pop g = Returned None g' -> session_inv g0 g'.
Proof.
  intros (Hwf & Hcnt & Hsum & Hst & H0) Hpop. unfold pop in Hpop.
  destruct (last (moves g)) as [m|] eqn:Hlast; [|discriminate].
  apply last_Some in Hlast as [ms Hms]. rewrite Hms in Hst, Hsum, Hpop.
  inversion Hst as [Hnil|ms' c m' Hst' Hnd Hfree Hsnoc Hcells].
  { by destruct ms. }
  apply app_inj_tail in Hsnoc as [-> ->].
  assert (Hwfc : wf_cells c).
  { apply (wf_cells_shape (cells g)); [|done]. by rewrite <- Hcells, shape_fill. }
  assert (Hob : Forall (fun p => out_of_bounds (translate p (Translate m)) = false)
                       (pos (MovePiece m))).
  { rewrite image_map in Hfree. apply Forall_fmap in Hfree.
    eapply Forall_impl; [exact Hfree|]. by intros ? []. }
  rewrite <- Hcells, (pop_clear_fill _ _ _ Hob) in Hpop.
  assert (Himg : (fun p => translate p (Translate m)) <$> pos (MovePiece m) = image m)
    by (symmetry; apply image_map).
  rewrite Himg, fill_restore in Hpop
    by (eapply Forall_impl; [exact Hfree|by intros ? []]).
  injection Hpop as <-.
  rewrite length_app; cbn [length].
  replace (length ms + 1 - 1)%nat with (length ms) by lia. rewrite take_app_length.
  rewrite image_sizes_snoc, length_image in Hsum.
  rewrite <- Hcells, true_cells_mark, length_image in Hcnt by done.
  pose proof (image_sizes_nonneg ms) as Hnn.
  pose proof (true_cells_le _ Hwfc) as Hle.
  assert (Hw : wrap (count g - Z.of_nat (length (pos (MovePiece m))))
               = count g - Z.of_nat (length (pos (MovePiece m)))).
  { apply wrap_in_int. unfold in_int, int_min, int_max, DimX, DimY in *. lia. }
  unfold session_inv; cbn [moves cells count]. rewrite Hw.
  split; [done|]. split; [lia|]. split; [lia|]. by split.
Qed.

Lemma session_inv_reachable (g0 g : Game) :
  session_inv g0 g0 -> reachable g0 g -> session_inv g0 g.
Proof.
  intros H0 Hr. induction Hr as [|g g' o anchor _ IH Ho Hadd|g g' _ IH Hpop].
  - done.
  - eapply session_inv_add; [exact IH| |exact Hadd]. by apply catalog_distinct_offsets.
  - by eapply session_inv_pop.
Qed.

(** ** The parsed board *)

Lemma cell_set_cell_other (c : Cells) (p q : Pos) (b : bool) :
  out_of_bounds p = false -> out_of_bounds q = false -> p <> q ->
  cell (set_cell c q b) p = cell c p.
Proof.
  intros Hp Hq Hne. rewrite !cell_idx, set_cell_put, cell_opt_put.
  rewrite decide_False; [done|]. intros E. apply Hne. symmetry. by apply idx_inj.
Qed.

Lemma new_Game_free (p : Pos) : cell (cells new_Game) p = false.
Proof.
  unfold cell, new_Game; cbn [cells].
  destruct (replicate _ _ !! _) as [row|] eqn:Hrow; [|done]. simpl.
  apply lookup_replicate in Hrow as [-> _].
  destruct (replicate _ _ !! _) as [b|] eqn:Hb; [|done]. simpl.
  by apply lookup_replicate in Hb as [-> _].
Qed.

Lemma new_Game_parse_inv : parse_inv 0 0 new_Game.
Proof.
  split; [|split; [done|split; [done|]]].
  - split; [reflexivity|]. vm_compute. repeat constructor.
  - intros p _ _. apply new_Game_free.
Qed.

Lemma parse_row_inv (x : Z) (row : string) :
  forall (y : Z) (g : Game),
  0 <= x < DimX -> 0 <= y -> y + Z.of_nat (String.length row) <= DimY ->
  parse_inv x y g ->
  parse_inv x (y + Z.of_nat (String.length row)) (parse_row x y row g).
Proof.
  induction row as [|ch row IH]; intros y g Hx Hy Hlen Hinv.
  - cbn [parse_row String.length]. by rewrite Z.add_0_r.
  - cbn [parse_row String.length] in *.
    replace (y + Z.of_nat (S (String.length row)))
      with ((y + 1) + Z.of_nat (String.length row)) by lia.
    apply IH; [done|lia|lia|].
    destruct Hinv as (Hwf & Hcnt & Hmv & Hfree).
    destruct (Ascii.eqb ch "x"); [|].
    + assert (Hob : out_of_bounds (x, y) = false).
      { apply out_of_bounds_false. simpl. unfold DimX, DimY in *. lia. }
      assert (Hxy : cell (cells g) (x, y) = false).
      { apply Hfree; [done|]. right. simpl. lia. }
      pose proof (true_cells_le _ Hwf) as Hle.
      split; [|split; [|split]]; cbn [moves cells count].
      * apply (wf_cells_fill (cells g) [(x, y)] true Hwf).
      * rewrite wrap_in_int
          by (unfold in_int, int_min, int_max, DimX, DimY in *; lia).
        rewrite set_cell_put, true_cells_put; [lia|].
        by rewrite wf_cell_opt, Hxy.
      * done.
      * intros p Hp Hlater. rewrite cell_set_cell_other; [|done|done|].
        -- apply Hfree; [done|]. lia.
        -- intros ->. simpl in Hlater. lia.
    + split; [done|]. split; [done|]. split; [done|].
      intros p Hp Hlater. apply Hfree; [done|]. lia.
Qed.

Lemma parse_rows_inv (rows : list string) :
  forall (x : Z) (g g' : Game),
  0 <= x -> x + Z.of_nat (length rows) <= DimX ->
  parse_inv x 0 g -> parse_rows x rows g = inr g' ->
  wf_cells (cells g') /\ count g' = Z.of_nat (true_cells (cells g')) /\ moves g' = [].
Proof.
  induction rows as [|row rows IH]; intros x g g' Hx Hlen Hinv H; cbn [parse_rows] in H.
  - injection H as <-. by destruct Hinv as (? & ? & ? & _).
  - cbn [length] in Hlen.
    destruct (Z.eqb_spec (Z.of_nat (String.length row)) DimY) as [Hrow|];
      [|discriminate]. cbn [negb] in H.
    apply IH in H; [done|lia|lia|].
    pose proof (parse_row_inv x row 0 g ltac:(lia) ltac:(lia) ltac:(lia) Hinv)
      as (Hwf & Hcnt & Hmv & Hfree).
    split; [done|]. split; [done|]. split; [done|].
    intros p Hp Hlater. apply Hfree; [done|]. lia.
Qed.

Lemma parseBoard_session_inv (b : string) (g0 : Game) :
  parseBoard b = inr g0 -> session_inv g0 g0.
Proof.
  unfold parseBoard. intros H.
  destruct (Z.eqb_spec (Z.of_nat (length (split_comma b))) DimX) as [Hrows|];
    [|discriminate]. cbn [negb] in H.
  apply parse_rows_inv in H as (Hwf & Hcnt & Hmv);
    [|lia|lia|apply new_Game_parse_inv].
  split; [done|]. split; [done|]. rewrite Hmv. split; [simpl; lia|].
  split; [constructor|lia].
Qed.

(** ** The count of a session *)

(** C2, as the claim has it, fails: the default board is parsed into a
    game of count 55 with an empty move stack, whose image sizes sum
    to 0. *)
Lemma count_not_image_sizes_of_stack :
  ~ (forall (b : string) (g0 g : Game),
       parseBoard b = inr g0 -> reachable g0 g ->
       count g = image_sizes (moves g)
       /\ count g = Z.of_nat (true_cells (cells g))).
Proof.
  intros H.
  destruct (H default_board full_Game full_Game parseBoard_default (reach_start _))
    as [Hsum _].
  vm_compute in Hsum. discriminate.
Qed.

(** C2, amended: in every session reached from a parsed starting board by
    successful [add]s of catalog orientations and successful [pop]s, the
    count equals the count of the starting board plus the sum of the image
    sizes of the moves on the stack, and equals the number of [true]
    cells of the grid. *)
Theorem session_count_invariant (b : string) (g0 g : Game) :
  parseBoard b = inr g0 -> reachable g0 g ->
  count g = count g0 + image_sizes (moves g)
  /\ count g = Z.of_nat (true_cells (cells g)).
Proof.
  intros Hparse Hr.
  destruct (session_inv_reachable g0 g (parseBoard_session_inv b g0 Hparse) Hr)
    as (_ & Hcnt & Hsum & _).
  by split.
Qed.

Lemma session_count_invariant_witness :
  count one_move_Game = count new_Game + image_sizes (moves one_move_Game)
  /\ count one_move_Game = Z.of_nat (true_cells (cells one_move_Game)).
Proof.
  apply (session_count_invariant empty_board new_Game one_move_Game).
  - reflexivity.
  - apply (reach_add new_Game new_Game one_move_Game red_piece (0, 0)).
    + constructor.
    + exists red_piece. split; vm_compute; tauto.
    + reflexivity.
Defined.

(** * Further properties *)

(** ** The algebra of the transformations *)

#[local] Instance cong64_equiv : Equivalence cong64.
Proof. unfold cong64. split; [by intros ?|by intros ? ?|by intros ? ? ? ->]. Qed.

#[local] Instance cong64_add : Proper (cong64 ==> cong64 ==> cong64) Z.add.
Proof.
  unfold cong64. intros x x' Hx y y' Hy.
  by rewrite (Zplus_mod x), (Zplus_mod x'), Hx, Hy.
Qed.

#[local] Instance cong64_mul : Proper (cong64 ==> cong64 ==> cong64) Z.mul.
Proof.
  unfold cong64. intros x x' Hx y y' Hy.
  by rewrite (Zmult_mod x), (Zmult_mod x'), Hx, Hy.
Qed.

Lemma wrap_cong64 (z : Z) : cong64 (wrap z) z.
Proof. unfold cong64, wrap. rewrite Zminus_mod_idemp_l. f_equal. lia. Qed.

Lemma cong64_wrap (x y : Z) : cong64 x y -> wrap x = wrap y.
Proof.
  unfold cong64, wrap. intros H.
  by rewrite <- (Zplus_mod_idemp_l x), <- (Zplus_mod_idemp_l y), H.
Qed.

(** Transforming by a product is transforming by the factors in turn. *)
Lemma Transform_compose (a b : Matrix) (p : Pos) :
  Transform (Mult a b) p = Transform a (Transform b p).
Proof.
  destruct a as [[a00 a01] [a10 a11]], b as [[b00 b01] [b10 b11]], p as [x y].
  unfold Transform, Mult, m00, m01, m10, m11; cbn [fst snd].
  f_equal; apply cong64_wrap; rewrite !wrap_cong64; unfold cong64; f_equal; ring.
Qed.

(** X1: transforming by a product is transforming by the right factor
    and then by the left one, for all matrices and positions, wrap-around
    included. *)
Theorem Transform_Mult (a b : Matrix) (p : Pos) :
  Transform (Mult a b) p = Transform a (Transform b p).
Proof.
  destruct a as [[a00 a01] [a10 a11]], b as [[b00 b01] [b10 b11]], p as [x y].
  unfold Transform, Mult, m00, m01, m10, m11; cbn [fst snd].
  f_equal; apply cong64_wrap; rewrite !wrap_cong64; unfold cong64; f_equal; ring.
Qed.

(** X2: [Mult] is associative, wrap-around included. *)
Theorem Mult_assoc (a b c : Matrix) : Mult (Mult a b) c = Mult a (Mult b c).
Proof.
  destruct a as [[a00 a01] [a10 a11]], b as [[b00 b01] [b10 b11]],
    c as [[c00 c01] [c10 c11]].
  unfold Mult, m00, m01, m10, m11; cbn [fst snd].
  apply (f_equal2 pair); apply (f_equal2 pair);
    apply cong64_wrap; rewrite !wrap_cong64; unfold cong64; f_equal; ring.
Qed.

(** Every entry of [tx] has a two-sided inverse in [tx]. *)
Lemma tx_inverses :
  Forall (fun m => Exists (fun m' => Mult m m' = Identity /\ Mult m' m = Identity) tx) tx.
Proof. apply (bool_decide_unpack _). by vm_compute. Qed.

(** X3: the 8 entries of [tx] are pairwise distinct, and each has a
    two-sided inverse among them: with C8, [tx] is a group of order 8. *)
Theorem tx_distinct_with_inverses :
  NoDup tx
  /\ Forall (fun m => Exists (fun m' => Mult m m' = Identity /\ Mult m' m = Identity) tx) tx.
Proof. split; apply (bool_decide_unpack _); by vm_compute. Qed.

Lemma Transform_Identity (p : Pos) : in_int_pos p -> Transform Identity p = p.
Proof.
  destruct p as [x y]. intros [Hx Hy]; simpl in Hx, Hy.
  cbv [Transform Identity m00 m01 m10 m11 fst snd].
  rewrite !Z.mul_1_l, !Z.mul_0_l. change (wrap 0) with 0.
  rewrite Z.add_0_r, Z.add_0_l.
  by rewrite !(wrap_in_int x Hx), !(wrap_in_int y Hy).
Qed.

Lemma Transform_in_int (m : Matrix) (p : Pos) : in_int_pos (Transform m p).
Proof. split; apply wrap_range. Qed.

(** The transformations of [tx] are injective on [int] positions. *)
Lemma Transform_inj (m : Matrix) (p q : Pos) :
  In m tx -> in_int_pos p -> in_int_pos q ->
  Transform m p = Transform m q -> p = q.
Proof.
  intros Hm Hp Hq H.
  pose proof tx_inverses as Hinv.
  rewrite Forall_forall in Hinv. apply list_elem_of_In in Hm.
  apply Hinv, Exists_exists in Hm as (m' & _ & _ & Hm').
  rewrite <- (Transform_Identity p Hp), <- (Transform_Identity q Hq), <- Hm'.
  by rewrite !Transform_compose, H.
Qed.

(** X4: a transformation of [tx] sends distinct positions (of [int]
    components) to distinct positions. *)
Theorem Transform_tx_inj (m : Matrix) (p q : Pos) :
  In m tx -> in_int_pos p -> in_int_pos q ->
  Transform m p = Transform m q -> p = q.
Proof.
  intros Hm Hp Hq H.
  pose proof tx_inverses as Hinv.
  rewrite Forall_forall in Hinv. apply list_elem_of_In in Hm.
  apply Hinv, Exists_exists in Hm as (m' & _ & _ & Hm').
  rewrite <- (Transform_Identity p Hp), <- (Transform_Identity q Hq), <- Hm'.
  by rewrite !Transform_compose, H.
Qed.

Lemma Transform_tx_inj_witness : ((1, 2) : Pos) = (1, 2).
Proof.
  apply (Transform_tx_inj Rot90 (1, 2) (1, 2)).
  - vm_compute. tauto.
  - vm_compute. repeat split; discriminate.
  - vm_compute. repeat split; discriminate.
  - reflexivity.
Defined.

(** A transformation of [tx] keeps the offsets of a piece pairwise
    distinct. *)
Lemma transform_keeps_distinct (p : Piece) (m : Matrix) :
  In m tx -> distinct_offsets p -> distinct_offsets (transform p m).
Proof.
  intros Hm [Hnd Hint]. rewrite Forall_forall in Hint. split.
  - rewrite pos_transform. apply (NoDup_fmap_2_strong (Transform m)); [|done].
    intros x y Hx Hy. apply Transform_inj; [done|by apply Hint..].
  - rewrite pos_transform. apply Forall_forall. intros x Hx.
    apply list_elem_of_fmap in Hx as (y & -> & _). apply Transform_in_int.
Qed.

(** X5: every orientation [allVersions] returns has the name, the flag
    and the number of offsets of the piece, and pairwise distinct offsets
    when the piece has. *)
Theorem allVersions_orientation (p o : Piece) :
  In o (allVersions p) ->
  name o = name p /\ sym o = sym p /\ length (pos o) = length (pos p)
  /\ (distinct_offsets p -> distinct_offsets o).
Proof.
  intros Ho. apply allVersions_transform in Ho as (m & Hm & ->).
  split; [done|]. split; [done|]. split; [apply length_pos_transform|].
  by apply transform_keeps_distinct.
Qed.

Lemma allVersions_orientation_witness :
  name (transform red_piece Rot90) = name red_piece
  /\ sym (transform red_piece Rot90) = sym red_piece
  /\ length (pos (transform red_piece Rot90)) = length (pos red_piece)
  /\ (distinct_offsets red_piece -> distinct_offsets (transform red_piece Rot90)).
Proof.
  apply (allVersions_orientation red_piece (transform red_piece Rot90)).
  vm_compute. tauto.
Defined.

(** ** The piece lookup and the pool parser *)

Lemma getPiece_from_found (pcs : list Piece) (n : string) (pc : Piece) :
  getPiece_from pcs n = (pc, true) -> In pc pcs /\ name pc = n.
Proof.
  induction pcs as [|q pcs IH]; simpl; [discriminate|].
  destruct (String.eqb_spec (name q) n) as [Hn|Hn].
  - intros [= <-]. split; [by left|done].
  - intros H. destruct (IH H). split; [by right|done].
Qed.

Lemma getPiece_from_missed (pcs : list Piece) (n : string) (pc : Piece) :
  getPiece_from pcs n = (pc, false) ->
  pc = zero_Piece /\ forall q, In q pcs -> name q <> n.
Proof.
  induction pcs as [|q pcs IH]; simpl.
  - intros [= <-]. split; [done|]. by intros q [].
  - destruct (String.eqb_spec (name q) n) as [Hn|Hn]; [discriminate|].
    intros H. destruct (IH H) as [-> Hall]. split; [done|].
    intros q' [<-|Hq']; [done|by apply Hall].
Qed.

(** X6: [getPiece] returns a catalog entry of the name asked for, or, when
    the catalog has no entry of that name, the zero piece and [false]. *)
Theorem getPiece_found_or_missed (n : string) :
  (forall pc, getPiece n = (pc, true) -> In pc pieces /\ name pc = n)
  /\ (forall pc, getPiece n = (pc, false) ->
        pc = zero_Piece /\ forall q, In q pieces -> name q <> n).
Proof.
  split; intros pc H; [by apply getPiece_from_found|by apply getPiece_from_missed].
Qed.

(** The names of the catalog are pairwise distinct. *)
Lemma getPiece_of_name (pc : Piece) :
  In pc pieces -> getPiece (name pc) = (pc, true).
Proof.
  intros H. simpl in H.
  repeat (destruct H as [<-|H]; [reflexivity|]). destruct H.
Qed.

(** X7: looking up the name of a catalog entry gives that entry back: the
    names of the catalog are pairwise distinct. *)
Theorem getPiece_name (pc : Piece) :
  In pc pieces -> getPiece (name pc) = (pc, true).
Proof.
  intros H. simpl in H.
  repeat (destruct H as [<-|H]; [reflexivity|]). destruct H.
Qed.

Lemma getPiece_name_witness : getPiece (name red_piece) = (red_piece, true).
Proof. apply (getPiece_name red_piece). vm_compute. tauto. Defined.

Lemma parseAvailable_from_inr (ns : list string) :
  forall (res ps : list Piece),
  parseAvailable_from ns res = inr ps <->
  exists new, ps = res ++ new
              /\ Forall2 (fun n pc => In pc pieces /\ name pc = n) ns new.
Proof.
  induction ns as [|n ns IH]; intros res ps; simpl.
  - split.
    + intros [= <-]. exists []. split; [by rewrite app_nil_r|constructor].
    + intros (new & -> & H). apply Forall2_nil_inv_l in H as ->.
      by rewrite app_nil_r.
  - destruct (getPiece n) as [pc [|]] eqn:Hg.
    + apply getPiece_from_found in Hg as [Hin Hname]. rewrite IH. split.
      * intros (new & -> & H). exists (pc :: new).
        split; [by rewrite <- app_assoc|]. by constructor.
      * intros (new & -> & H).
        apply Forall2_cons_inv_l in H as (pc' & new' & [Hin' Hname'] & H & ->).
        assert (pc' = pc) as ->.
        { pose proof (getPiece_of_name pc' Hin') as E. rewrite Hname' in E.
          unfold getPiece in E. pose proof (getPiece_of_name pc Hin) as E'.
          rewrite Hname in E'. unfold getPiece in E'. congruence. }
        exists new'. split; [by rewrite <- app_assoc|done].
    + apply getPiece_from_missed in Hg as [_ Hmiss]. split; [discriminate|].
      intros (new & _ & H).
      apply Forall2_cons_inv_l in H as (pc' & _ & [Hin' Hname'] & _).
      by destruct (Hmiss pc' Hin').
Qed.

Lemma parseAvailable_from_inl (ns : list string) :
  forall (res : list Piece) (msg : string),
  parseAvailable_from ns res = inl msg ->
  exists n, In n ns /\ (forall q, In q pieces -> name q <> n)
            /\ msg = ("unknown piece: " +:+ n).
Proof.
  induction ns as [|n ns IH]; intros res msg; simpl; [discriminate|].
  destruct (getPiece n) as [pc [|]] eqn:Hg.
  - intros H. apply IH in H as (n' & Hin & Hmiss & ->). exists n'. by split; [right|].
  - intros [= <-]. apply getPiece_from_missed in Hg as [_ Hmiss].
    exists n. by split; [left|].
Qed.

(** X8: [parseAvailable] gives the empty pool on the empty text; on any
    other text it succeeds exactly with the catalog entries of the names
    between the commas, in order. *)
Theorem parseAvailable_pool (a : string) (ps : list Piece) :
  a <> EmptyString ->
  parseAvailable EmptyString = inr []
  /\ (parseAvailable a = inr ps <->
      Forall2 (fun n pc => In pc pieces /\ name pc = n) (split_comma a) ps).
Proof.
  intros Ha. split; [reflexivity|]. unfold parseAvailable.
  destruct a as [|ch a]; [done|]. cbn [String.length Nat.eqb].
  rewrite parseAvailable_from_inr. split.
  - by intros (new & -> & H).
  - intros H. by exists ps.
Qed.

Lemma parseAvailable_pool_witness :
  parseAvailable EmptyString = inr []
  /\ (parseAvailable "red,turquoise" = inr [red_piece; turquoise_piece] <->
      Forall2 (fun n pc => In pc pieces /\ name pc = n)
              (split_comma "red,turquoise") [red_piece; turquoise_piece]).
Proof.
  apply (parseAvailable_pool "red,turquoise" [red_piece; turquoise_piece]).
  discriminate.
Defined.

(** X9: when [parseAvailable] fails, its error names one of the names
    between the commas, and the catalog has no entry of that name. *)
Theorem parseAvailable_unknown (a msg : string) :
  parseAvailable a = inl msg ->
  exists n, In n (split_comma a) /\ (forall q, In q pieces -> name q <> n)
            /\ msg = ("unknown piece: " +:+ n).
Proof.
  unfold parseAvailable. destruct (String.length a =? 0)%nat; [discriminate|].
  apply parseAvailable_from_inl.
Qed.

Lemma parseAvailable_unknown_witness :
  exists n, In n (split_comma "red,grey") /\ (forall q, In q pieces -> name q <> n)
            /\ ("unknown piece: grey" : string) = ("unknown piece: " +:+ n).
Proof. apply (parseAvailable_unknown "red,grey" "unknown piece: grey"). reflexivity. Defined.

(** ** What [parseBoard] accepts and what it builds *)

Lemma parse_rows_accepts (rows : list string) :
  forall (x : Z) (g : Game),
  (exists g', parse_rows x rows g = inr g') <->
  Forall (fun row => Z.of_nat (String.length row) = DimY) rows.
Proof.
  induction rows as [|row rows IH]; intros x g; cbn [parse_rows].
  - split; [constructor|by exists g].
  - destruct (Z.eqb_spec (Z.of_nat (String.length row)) DimY) as [Hrow|Hrow];
      cbn [negb].
    + rewrite IH. split; [by constructor|]. by intros [_ ?]%Forall_cons.
    + split; [by intros [g' ?]|]. by intros [? _]%Forall_cons.
Qed.

Lemma parse_rows_rejects (rows : list string) :
  forall (x : Z) (g : Game) (e : ParseError),
  parse_rows x rows g = inl e ->
  exists row, e = BadRowLength row (String.length row) /\ In row rows
              /\ Z.of_nat (String.length row) <> DimY.
Proof.
  induction rows as [|row rows IH]; intros x g e; cbn [parse_rows]; [discriminate|].
  destruct (Z.eqb_spec (Z.of_nat (String.length row)) DimY) as [Hrow|Hrow];
    cbn [negb].
  - intros H. apply IH in H as (row' & -> & Hin & Hlen). exists row'.
    by split; [|split; [right|]].
  - intros [= <-]. exists row. by split; [|split; [left|]].
Qed.

(** X10: [parseBoard] accepts exactly the texts of [DimX] comma-separated
    rows of [DimY] bytes each. *)
Theorem parseBoard_accepts (b : string) :
  (exists g, parseBoard b = inr g) <->
  Z.of_nat (length (split_comma b)) = DimX
  /\ Forall (fun row => Z.of_nat (String.length row) = DimY) (split_comma b).
Proof.
  unfold parseBoard.
  destruct (Z.eqb_spec (Z.of_nat (length (split_comma b))) DimX) as [Hn|Hn];
    cbn [negb].
  - rewrite parse_rows_accepts. tauto.
  - split; [by intros [g ?]|tauto].
Qed.

(** X11: the error of [parseBoard] is the wrong number of rows, reported
    with the number found, or else a row of the text whose length is not
    [DimY], reported with its length. *)
Theorem parseBoard_rejects (b : string) (e : ParseError) :
  parseBoard b = inl e ->
  (e = BadRowCount (length (split_comma b))
   /\ Z.of_nat (length (split_comma b)) <> DimX)
  \/ (Z.of_nat (length (split_comma b)) = DimX
      /\ exists row, e = BadRowLength row (String.length row)
                     /\ In row (split_comma b)
                     /\ Z.of_nat (String.length row) <> DimY).
Proof.
  unfold parseBoard.
  destruct (Z.eqb_spec (Z.of_nat (length (split_comma b))) DimX) as [Hn|Hn];
    cbn [negb].
  - intros H. right. split; [done|]. by eapply parse_rows_rejects.
  - intros [= <-]. by left.
Qed.

Lemma parseBoard_rejects_witness :
  (BadRowCount 2 = BadRowCount (length (split_comma "0x,x0"))
   /\ Z.of_nat (length (split_comma "0x,x0")) <> DimX)
  \/ (Z.of_nat (length (split_comma "0x,x0")) = DimX
      /\ exists row, BadRowCount 2 = BadRowLength row (String.length row)
                     /\ In row (split_comma "0x,x0")
                     /\ Z.of_nat (String.length row) <> DimY).
Proof. apply (parseBoard_rejects "0x,x0" (BadRowCount 2)). reflexivity. Defined.

Lemma parseBoard_no_moves (b : string) (g : Game) :
  parseBoard b = inr g -> moves g = [].
Proof.
  unfold parseBoard. intros H.
  destruct (Z.eqb_spec (Z.of_nat (length (split_comma b))) DimX) as [Hrows|];
    [|discriminate]. cbn [negb] in H.
  by apply parse_rows_inv in H as (_ & _ & Hmv);
    [|lia|lia|apply new_Game_parse_inv].
Qed.

(** X12: the game [parseBoard] builds has the grid of the array shape,
    no move, and a count equal to the number of [true] cells, which is
    at most [DimX * DimY]. *)
Theorem parseBoard_game (b : string) (g : Game) :
  parseBoard b = inr g ->
  wf_cells (cells g) /\ moves g = []
  /\ count g = Z.of_nat (true_cells (cells g))
  /\ 0 <= count g <= DimX * DimY.
Proof.
  unfold parseBoard. intros H.
  destruct (Z.eqb_spec (Z.of_nat (length (split_comma b))) DimX) as [Hrows|];
    [|discriminate]. cbn [negb] in H.
  apply parse_rows_inv in H as (Hwf & Hcnt & Hmv);
    [|lia|lia|apply new_Game_parse_inv].
  pose proof (true_cells_le _ Hwf) as Hle.
  split; [done|]. split; [done|]. split; [done|]. lia.
Qed.

Lemma parseBoard_game_witness :
  wf_cells (cells corner_Game) /\ moves corner_Game = []
  /\ count corner_Game = Z.of_nat (true_cells (cells corner_Game))
  /\ 0 <= count corner_Game <= DimX * DimY.
Proof. apply (parseBoard_game corner_board corner_Game). reflexivity. Defined.

Lemma cell_set_cell_same (c : Cells) (p : Pos) (b : bool) :
  wf_cells c -> out_of_bounds p = false -> cell (set_cell c p b) p = b.
Proof.
  intros Hwf Hp. rewrite cell_idx, set_cell_put, cell_opt_put, decide_True by done.
  by rewrite wf_cell_opt.
Qed.

Lemma wf_cells_set_cell (c : Cells) (p : Pos) (b : bool) :
  wf_cells c -> wf_cells (set_cell c p b).
Proof. apply (wf_cells_fill c [p] b). Qed.

Lemma wf_cells_parse_row (x : Z) (row : string) :
  forall (y : Z) (g : Game), wf_cells (cells g) -> wf_cells (cells (parse_row x y row g)).
Proof.
  induction row as [|ch row IH]; intros y g Hwf; cbn [parse_row]; [done|].
  apply IH. destruct (Ascii.eqb ch "x"); [|done]. by apply wf_cells_set_cell.
Qed.

(** The byte of a row at an offset: whether it is ['x']. *)
Lemma parse_row_cells (x : Z) (row : string) :
  forall (y : Z) (g : Game) (p : Pos),
  0 <= x < DimX -> 0 <= y -> y + Z.of_nat (String.length row) <= DimY ->
  wf_cells (cells g) -> out_of_bounds p = false ->
  cell (cells (parse_row x y row g)) p
  = cell (cells g) p
    || ((p.1 =? x) && (y <=? p.2)
        && match String.get (Z.to_nat (p.2 - y)) row with
           | Some ch => Ascii.eqb ch "x"
           | None => false
           end).
Proof.
  induction row as [|ch row IH]; intros y g p Hx Hy Hlen Hwf Hp.
  - cbn [parse_row String.get]. by rewrite andb_false_r, orb_false_r.
  - cbn [parse_row String.length] in *.
    assert (Hxy : out_of_bounds (x, y) = false).
    { apply out_of_bounds_false. simpl. unfold DimX, DimY in *. lia. }
    rewrite IH; [|done|lia|lia| |done].
    2:{ destruct (Ascii.eqb ch "x"); [|done]. by apply wf_cells_set_cell. }
    destruct (decide (p = (x, y))) as [->|Hne].
    + cbn [fst snd]. rewrite Z.eqb_refl, Z.leb_refl, Z.sub_diag.
      replace (y + 1 <=? y) with false by (symmetry; apply Z.leb_gt; lia).
      change (Z.to_nat 0) with 0%nat. cbn [String.get andb]. rewrite orb_false_r.
      destruct (Ascii.eqb ch "x"); cbn [cells].
      * rewrite cell_set_cell_same by done. by rewrite orb_true_r.
      * by rewrite orb_false_r.
    + assert (Hg : cell (cells (if Ascii.eqb ch "x"
                                then mkGame (moves g) (set_cell (cells g) (x, y) true)
                                            (wrap (count g + 1))
                                else g)) p = cell (cells g) p).
      { destruct (Ascii.eqb ch "x"); [|done]. cbn [cells].
        by apply cell_set_cell_other. }
      rewrite Hg. f_equal.
      destruct (Z.eqb_spec p.1 x) as [E1|]; [|done]. cbn [andb].
      destruct (Z.leb_spec (y + 1) p.2) as [H1|H1].
      * rewrite (proj2 (Z.leb_le y p.2)) by lia.
        replace (Z.to_nat (p.2 - y)) with (S (Z.to_nat (p.2 - (y + 1)))) by lia.
        done.
      * destruct (Z.leb_spec y p.2) as [H2|H2]; [|done].
        exfalso. apply Hne. destruct p as [p1 p2]; simpl in *. f_equal; lia.
Qed.

Lemma parse_rows_cells (rows : list string) :
  forall (x : Z) (g g' : Game) (p : Pos),
  0 <= x -> x + Z.of_nat (length rows) <= DimX ->
  wf_cells (cells g) -> parse_rows x rows g = inr g' -> out_of_bounds p = false ->
  cell (cells g') p
  = cell (cells g) p || ((x <=? p.1) && board_char rows (p.1 - x, p.2)).
Proof.
  induction rows as [|row rows IH]; intros x g g' p Hx Hlen Hwf H Hp;
    cbn [parse_rows] in H.
  - injection H as <-. unfold board_char. rewrite lookup_nil.
    by rewrite andb_false_r, orb_false_r.
  - cbn [length] in Hlen.
    destruct (Z.eqb_spec (Z.of_nat (String.length row)) DimY) as [Hrow|];
      [|discriminate]. cbn [negb] in H.
    rewrite (IH (x + 1) (parse_row x 0 row g) g' p ltac:(lia) ltac:(lia)
               (wf_cells_parse_row x row 0 g Hwf) H Hp).
    rewrite parse_row_cells; [|lia|lia|lia|done|done].
    rewrite <- orb_assoc. f_equal.
    apply out_of_bounds_false in Hp as [Hp1 Hp2].
    rewrite (proj2 (Z.leb_le 0 p.2)) by lia. rewrite andb_true_r, Z.sub_0_r.
    unfold board_char; cbn [fst snd].
    destruct (Z.eqb_spec p.1 x) as [E|E].
    + rewrite E, Z.sub_diag, Z.leb_refl.
      replace (x + 1 <=? x) with false by (symmetry; apply Z.leb_gt; lia).
      change (Z.to_nat 0) with 0%nat. cbn [andb orb lookup list_lookup].
      by rewrite orb_false_r.
    + cbn [orb]. destruct (Z.leb_spec (x + 1) p.1) as [H1|H1].
      * rewrite (proj2 (Z.leb_le x p.1)) by lia. cbn [andb].
        replace (Z.to_nat (p.1 - x)) with (S (Z.to_nat (p.1 - (x + 1)))) by lia.
        done.
      * destruct (Z.leb_spec x p.1) as [H2|H2]; [lia|done].
Qed.

(** X13: a cell of the parsed game is taken exactly when the byte of the
    board text at its row and column is ['x']. *)
Theorem parseBoard_cells (b : string) (g : Game) (p : Pos) :
  parseBoard b = inr g -> out_of_bounds p = false ->
  cell (cells g) p = board_char (split_comma b) p.
Proof.
  unfold parseBoard. intros H Hp.
  destruct (Z.eqb_spec (Z.of_nat (length (split_comma b))) DimX) as [Hrows|];
    [|discriminate]. cbn [negb] in H.
  destruct new_Game_parse_inv as (Hwf & _).
  rewrite (parse_rows_cells (split_comma b) 0 new_Game g p
             ltac:(lia) ltac:(lia) Hwf H Hp).
  rewrite new_Game_free, Z.sub_0_r. cbn [orb].
  apply out_of_bounds_false in Hp as [Hp1 _].
  rewrite (proj2 (Z.leb_le 0 p.1)) by lia. by destruct p.
Qed.

Lemma parseBoard_cells_witness :
  cell (cells corner_Game) (0, 1) = board_char (split_comma corner_board) (0, 1).
Proof.
  apply (parseBoard_cells corner_board corner_Game (0, 1)); reflexivity.
Defined.

(** ** More on [add] and [pop] *)

(** X14: [pop] returns an error exactly on an empty move stack; the error
    is the one of the empty game and the game is left as it is. *)
Theorem pop_error_iff_empty (g : Game) :
  (moves g = [] ->
   pop g = Returned (Some "failed to pop from empty game"%string) g)
  /\ (forall e g', pop g = Returned (Some e) g' ->
        moves g = [] /\ g' = g /\ e = "failed to pop from empty game"%string).
Proof.
  unfold pop. split.
  - by intros ->.
  - intros e g' H. destruct (last (moves g)) as [m|] eqn:Hlast.
    + destruct (pop_clear _ _ _); discriminate.
    + apply last_None in Hlast. by injection H as <- <-.
Qed.

Lemma add_scan_free (c : Cells) (anchor : Pos) (ps : list Pos) :
  forall (i : nat) (img : list Pos),
  (i + length ps <= 5)%nat ->
  Forall (fun p => out_of_bounds (translate p anchor) = false
                   /\ cell c (translate p anchor) = false) ps ->
  exists img', add_scan c anchor i ps img = ScanDone img'.
Proof.
  induction ps as [|a ps IH]; intros i img Hlen Hfree; cbn [add_scan].
  - by exists img.
  - cbn [length] in Hlen. apply Forall_cons in Hfree as [[-> ->] Hfree].
    destruct (Nat.leb_spec 5 i); [lia|]. apply IH; [lia|done].
Qed.

(** [add] places a piece of at most 5 offsets on free cells of the board. *)
Lemma add_free_places (g : Game) (piece : Piece) (anchor : Pos) :
  wrap (count g + Z.of_nat (length (pos piece))) <= DimX * DimY ->
  (length (pos piece) <= 5)%nat ->
  Forall (fun p => out_of_bounds p = false /\ cell (cells g) p = false)
         (image (mkMove piece anchor)) ->
  add g piece anchor
  = Returned (true, None)
      (mkGame (moves g ++ [mkMove piece anchor])
              (fill (cells g) (image (mkMove piece anchor)) true)
              (wrap (count g + Z.of_nat (length (pos piece))))).
Proof.
  intros Hbudget Hlen Hfree. unfold add.
  destruct (Z.gtb_spec (wrap (count g + Z.of_nat (length (pos piece)))) (DimX * DimY))
    as [Hgt|_]; [lia|].
  rewrite image_fmap in Hfree |- *. apply Forall_fmap in Hfree.
  destruct (add_scan_free (cells g) anchor (pos piece) 0 (replicate 5 (0, 0)))
    as [img Hscan]; [simpl; lia|done|].
  by rewrite Hscan, (add_mark_after_scan _ _ _ _ Hscan).
Qed.

(** X15: when the budget test passes, the piece has at most 5 offsets and
    every cell of the image is inside the board and free, [add] places
    the piece: it appends the move, adds the number of offsets to the
    count and marks the cells of the image. *)
Theorem add_places (g : Game) (piece : Piece) (anchor : Pos) :
  wrap (count g + Z.of_nat (length (pos piece))) <= DimX * DimY ->
  (length (pos piece) <= 5)%nat ->
  Forall (fun p => out_of_bounds p = false /\ cell (cells g) p = false)
         (image (mkMove piece anchor)) ->
  add g piece anchor
  = Returned (true, None)
      (mkGame (moves g ++ [mkMove piece anchor])
              (fill (cells g) (image (mkMove piece anchor)) true)
              (wrap (count g + Z.of_nat (length (pos piece))))).
Proof.
  intros Hbudget Hlen Hfree. unfold add.
  destruct (Z.gtb_spec (wrap (count g + Z.of_nat (length (pos piece)))) (DimX * DimY))
    as [Hgt|_]; [lia|].
  rewrite image_fmap in Hfree |- *. apply Forall_fmap in Hfree.
  destruct (add_scan_free (cells g) anchor (pos piece) 0 (replicate 5 (0, 0)))
    as [img Hscan]; [simpl; lia|done|].
  by rewrite Hscan, (add_mark_after_scan _ _ _ _ Hscan).
Qed.

Lemma add_places_witness :
  add new_Game red_piece (0, 0)
  = Returned (true, None)
      (mkGame (moves new_Game ++ [mkMove red_piece (0, 0)])
              (fill (cells new_Game) (image (mkMove red_piece (0, 0))) true)
              (wrap (count new_Game + Z.of_nat (length (pos red_piece))))).
Proof.
  apply (add_places new_Game red_piece (0, 0)).
  - vm_compute. discriminate.
  - vm_compute. lia.
  - vm_compute. repeat constructor.
Defined.

Lemma elem_of_idx_fmap (l : list Pos) (p : Pos) :
  out_of_bounds p = false -> Forall (fun q => out_of_bounds q = false) l ->
  idx p ∈ idx <$> l <-> p ∈ l.
Proof.
  intros Hp Hl. rewrite Forall_forall in Hl. split.
  - intros (q & E & Hq)%list_elem_of_fmap.
    by rewrite (idx_inj p q Hp (Hl q Hq) E).
  - apply list_elem_of_fmap_2.
Qed.

(** Marking or clearing a list of cells inside the board changes exactly
    those cells. *)
Lemma cell_fill (c : Cells) (l : list Pos) (b : bool) (p : Pos) :
  wf_cells c -> out_of_bounds p = false ->
  Forall (fun q => out_of_bounds q = false) l ->
  cell (fill c l b) p = if bool_decide (p ∈ l) then b else cell c p.
Proof.
  intros Hwf Hp Hl. rewrite !cell_idx, cell_opt_fill.
  destruct (decide (idx p ∈ idx <$> l)) as [Hin|Hnin].
  - rewrite bool_decide_true by (by apply elem_of_idx_fmap in Hin).
    by rewrite wf_cell_opt.
  - rewrite bool_decide_false; [done|]. intros Hin. apply Hnin.
    by apply elem_of_idx_fmap.
Qed.

(** X16: after a successful [add] the move stack has the new move on
    top, the count has grown by the number of offsets, the cells of the
    image are taken, and every other cell of the board is as before. *)
Theorem add_placed_effect (g g' : Game) (piece : Piece) (anchor p : Pos) :
  add g piece anchor = Returned (true, None) g' ->
  wf_cells (cells g) -> out_of_bounds p = false ->
  moves g' = moves g ++ [mkMove piece anchor]
  /\ count g' = wrap (count g + Z.of_nat (length (pos piece)))
  /\ cell (cells g') p
     = (if bool_decide (p ∈ image (mkMove piece anchor)) then true
        else cell (cells g) p).
Proof.
  intros Hadd Hwf Hp. apply add_placed_inv in Hadd as (_ & _ & Hfree & ->).
  cbn [moves cells count]. split; [done|]. split; [done|].
  apply cell_fill; [done..|]. eapply Forall_impl; [exact Hfree|]. by intros ? [].
Qed.

Lemma add_placed_effect_witness :
  moves one_move_Game = moves new_Game ++ [mkMove red_piece (0, 0)]
  /\ count one_move_Game = wrap (count new_Game + Z.of_nat (length (pos red_piece)))
  /\ cell (cells one_move_Game) (1, 1)
     = (if bool_decide ((1, 1) ∈ image (mkMove red_piece (0, 0))) then true
        else cell (cells new_Game) (1, 1)).
Proof.
  apply (add_placed_effect new_Game one_move_Game red_piece (0, 0) (1, 1)).
  - reflexivity.
  - split; [reflexivity|]. vm_compute. repeat constructor.
  - reflexivity.
Defined.

Lemma pop_clear_some (anchor : Pos) (ps : list Pos) :
  forall c c' : Cells,
  pop_clear c anchor ps = Some c' ->
  Forall (fun p => out_of_bounds (translate p anchor) = false) ps
  /\ c' = fill c ((fun p => translate p anchor) <$> ps) false.
Proof.
  induction ps as [|a ps IH]; intros c c' H; cbn [pop_clear] in H.
  - injection H as <-. by split.
  - destruct (out_of_bounds (translate a anchor)) eqn:Hob; [discriminate|].
    apply IH in H as [Hall ->]. split; [by constructor|done].
Qed.

(** X17: a successful [pop] takes the top move off the stack, subtracts
    the number of its offsets from the count, frees the cells of its
    image, all of which are inside the board, and leaves every other cell
    of the board as it was. *)
Theorem pop_effect (g g' : Game) (p : Pos) :
  pop g = Returned None g' -> wf_cells (cells g) -> out_of_bounds p = false ->
  exists m,
    moves g = moves g' ++ [m]
    /\ count g' = wrap (count g - Z.of_nat (length (image m)))
    /\ Forall (fun q => out_of_bounds q = false) (image m)
    /\ cell (cells g') p
       = (if bool_decide (p ∈ image m) then false else cell (cells g) p).
Proof.
  unfold pop. intros H Hwf Hp.
  destruct (last (moves g)) as [m|] eqn:Hlast; [|discriminate].
  apply last_Some in Hlast as [ms Hms].
  destruct (pop_clear (cells g) (Translate m) (pos (MovePiece m))) as [c'|] eqn:Hc;
    [|discriminate].
  injection H as <-. apply pop_clear_some in Hc as [Hall ->].
  assert (Himg : (fun q => translate q (Translate m)) <$> pos (MovePiece m) = image m)
    by (symmetry; apply image_map).
  rewrite Himg. assert (Hob : Forall (fun q => out_of_bounds q = false) (image m)).
  { rewrite <- Himg. by apply Forall_fmap. }
  exists m. cbn [moves cells count]. rewrite Hms, length_app; cbn [length].
  replace (length ms + 1 - 1)%nat with (length ms) by lia.
  rewrite take_app_length, length_image. split; [done|]. split; [done|].
  split; [done|]. by apply cell_fill.
Qed.

Lemma pop_effect_witness :
  exists m,
    moves one_move_Game = moves new_Game ++ [m]
    /\ count new_Game = wrap (count one_move_Game - Z.of_nat (length (image m)))
    /\ Forall (fun q => out_of_bounds q = false) (image m)
    /\ cell (cells new_Game) (0, 1)
       = (if bool_decide ((0, 1) ∈ image m) then false
          else cell (cells one_move_Game) (0, 1)).
Proof.
  apply (pop_effect one_move_Game new_Game (0, 1)).
  - reflexivity.
  - split; [reflexivity|]. vm_compute. repeat constructor.
  - reflexivity.
Defined.

(** ** The move stack of a session *)

Lemma images_snoc (ms : list Move) (m : Move) :
  images (ms ++ [m]) = images ms ++ image m.
Proof. unfold images. rewrite fmap_app, concat_app. simpl. by rewrite app_nil_r. Qed.

Lemma stacked_images (c0 : Cells) (ms : list Move) (c : Cells) :
  wf_cells c0 -> stacked c0 ms c ->
  wf_cells c
  /\ NoDup (images ms)
  /\ Forall (fun p => out_of_bounds p = false /\ cell c0 p = false) (images ms)
  /\ forall p, out_of_bounds p = false ->
       cell c p = cell c0 p || bool_decide (p ∈ images ms).
Proof.
  intros Hwf0 Hst.
  induction Hst as [|ms c m Hst (Hwf & Hnd & Hall & Hcell) Hndm Hfree].
  - split; [done|]. split; [constructor|]. split; [constructor|].
    intros p _. by rewrite orb_false_r.
  - assert (Hob : Forall (fun q => out_of_bounds q = false) (image m))
      by (eapply Forall_impl; [exact Hfree|by intros ? []]).
    rewrite Forall_forall in Hfree. rewrite images_snoc.
    split; [by apply wf_cells_fill|]. split; [|split].
    + apply NoDup_app. split; [done|]. split; [|done].
      intros p Hp Hpm. destruct (Hfree p Hpm) as [Hpb Hpc].
      rewrite Hcell, bool_decide_true, orb_true_r in Hpc by done. discriminate.
    + apply Forall_app. split; [done|]. apply Forall_forall. intros p Hp.
      destruct (Hfree p Hp) as [Hpb Hpc]. split; [done|].
      rewrite Hcell in Hpc by done. by apply orb_false_elim in Hpc as [? _].
    + intros p Hp. rewrite cell_fill by done.
      destruct (decide (p ∈ image m)) as [Hin|Hnin].
      * rewrite bool_decide_true by done.
        rewrite (bool_decide_true (p ∈ images ms ++ image m))
          by (apply elem_of_app; by right).
        by rewrite orb_true_r.
      * rewrite bool_decide_false, Hcell by done. f_equal.
        apply bool_decide_ext. rewrite elem_of_app. tauto.
Qed.

(** X18: in a session reached from a parsed board, the images of the
    moves on the stack lie inside the board on cells the board left
    free, no cell occurs twice in them, and a cell of the grid is taken
    exactly when the board had it taken or a move of the stack covers
    it. *)
Theorem session_stack_disjoint (b : string) (g0 g : Game) (p : Pos) :
  parseBoard b = inr g0 -> reachable g0 g -> out_of_bounds p = false ->
  NoDup (images (moves g))
  /\ Forall (fun q => out_of_bounds q = false /\ cell (cells g0) q = false)
            (images (moves g))
  /\ cell (cells g) p = cell (cells g0) p || bool_decide (p ∈ images (moves g)).
Proof.
  intros Hparse Hr Hp.
  pose proof (parseBoard_session_inv b g0 Hparse) as H0.
  destruct (session_inv_reachable g0 g H0 Hr) as (_ & _ & _ & Hst & _).
  destruct H0 as (Hwf0 & _).
  destruct (stacked_images _ _ _ Hwf0 Hst) as (_ & Hnd & Hall & Hcell).
  split; [done|]. split; [done|]. by apply Hcell.
Qed.

Lemma session_stack_disjoint_witness :
  NoDup (images (moves one_move_Game))
  /\ Forall (fun q => out_of_bounds q = false /\ cell (cells new_Game) q = false)
            (images (moves one_move_Game))
  /\ cell (cells one_move_Game) (0, 2)
     = cell (cells new_Game) (0, 2) || bool_decide ((0, 2) ∈ images (moves one_move_Game)).
Proof.
  apply (session_stack_disjoint empty_board new_Game one_move_Game (0, 2)).
  - reflexivity.
  - apply (reach_add new_Game new_Game one_move_Game red_piece (0, 0)).
    + constructor.
    + exists red_piece. split; vm_compute; tauto.
    + reflexivity.
  - reflexivity.
Defined.

Lemma small_moves_reachable (g0 g : Game) :
  moves g0 = [] -> reachable g0 g -> small_moves g.
Proof.
  intros H0 Hr. unfold small_moves.
  induction Hr as [|g g' o anchor _ IH Ho Hadd|g g' _ IH Hpop].
  - rewrite H0. constructor.
  - apply add_placed_inv in Hadd as (_ & Hlen & _ & ->). cbn [moves].
    apply Forall_app. split; [done|]. by apply Forall_singleton.
  - unfold pop in Hpop. destruct (last (moves g)) as [m|] eqn:Hlast; [|discriminate].
    destruct (pop_clear _ _ _); [|discriminate]. injection Hpop as <-.
    cbn [moves]. by apply Forall_take.
Qed.

(** X19: in a session reached from a parsed board [pop] never panics,
    and it succeeds, into a session of the same kind, whenever the stack
    is not empty. *)
Theorem session_pop_succeeds (b : string) (g0 g : Game) :
  parseBoard b = inr g0 -> reachable g0 g ->
  pop g <> Panicked
  /\ (moves g <> [] -> exists g', pop g = Returned None g' /\ reachable g0 g').
Proof.
  intros Hparse Hr.
  destruct (session_inv_reachable g0 g (parseBoard_session_inv b g0 Hparse) Hr)
    as (_ & _ & _ & Hst & _).
  assert (H : moves g = [] \/ exists g', pop g = Returned None g').
  { destruct (last (moves g)) as [m|] eqn:Hlast.
    - right. unfold pop. rewrite Hlast.
      apply last_Some in Hlast as [ms Hms]. rewrite Hms in Hst.
      inversion Hst as [Hnil|ms' c m' Hst' Hnd Hfree Hsnoc Hcells]; [by destruct ms|].
      apply app_inj_tail in Hsnoc as [-> ->].
      rewrite pop_clear_fill; [by eexists|].
      rewrite image_map in Hfree. apply Forall_fmap in Hfree.
      eapply Forall_impl; [exact Hfree|]. by intros ? [].
    - left. by apply last_None. }
  split.
  - destruct H as [Hnil|[g' Hpop]]; [|by rewrite Hpop].
    unfold pop. by rewrite Hnil.
  - intros Hne. destruct H as [?|[g' Hpop]]; [done|].
    exists g'. split; [done|]. by apply (reach_pop g0 g g').
Qed.

Lemma session_pop_succeeds_witness :
  pop one_move_Game <> Panicked
  /\ (moves one_move_Game <> [] ->
      exists g', pop one_move_Game = Returned None g' /\ reachable new_Game g').
Proof.
  apply (session_pop_succeeds empty_board new_Game one_move_Game).
  - reflexivity.
  - apply (reach_add new_Game new_Game one_move_Game red_piece (0, 0)).
    + constructor.
    + exists red_piece. split; vm_compute; tauto.
    + reflexivity.
Defined.

(** X20: in a session reached from a parsed board, placing again the
    move a successful [pop] has taken off gives the game before the
    [pop] back. *)
Theorem session_pop_add_roundtrip (b : string) (g0 g g' : Game) :
  parseBoard b = inr g0 -> reachable g0 g -> pop g = Returned None g' ->
  exists m, last (moves g) = Some m
            /\ add g' (MovePiece m) (Translate m) = Returned (true, None) g.
Proof.
  intros Hparse Hr Hpop.
  pose proof (parseBoard_no_moves b g0 Hparse) as Hmv0.
  pose proof (small_moves_reachable g0 g Hmv0 Hr) as Hsmall.
  pose proof (parseBoard_session_inv b g0 Hparse) as H0.
  destruct (session_inv_reachable g0 g H0 Hr) as (Hwf & Hcnt & Hsum & Hst & Hc0).
  unfold pop in Hpop.
  destruct (last (moves g)) as [m|] eqn:Hlast; [|discriminate].
  exists m. split; [done|].
  apply last_Some in Hlast as [ms Hms]. unfold small_moves in Hsmall.
  rewrite Hms in Hst, Hsmall, Hpop.
  apply Forall_app in Hsmall as [_ Hm]. apply (proj1 (Forall_singleton _ _)) in Hm.
  inversion Hst as [Hnil|ms' c m' Hst' Hnd Hfree Hsnoc Hcells]; [by destruct ms|].
  apply app_inj_tail in Hsnoc as [-> ->].
  assert (Hwfc : wf_cells c).
  { apply (wf_cells_shape (cells g)); [|done]. by rewrite <- Hcells, shape_fill. }
  assert (Hob : Forall (fun p => out_of_bounds (translate p (Translate m)) = false)
                       (pos (MovePiece m))).
  { rewrite image_map in Hfree. apply Forall_fmap in Hfree.
    eapply Forall_impl; [exact Hfree|]. by intros ? []. }
  assert (Himg : (fun p => translate p (Translate m)) <$> pos (MovePiece m) = image m)
    by (symmetry; apply image_map).
  rewrite <- Hcells, (pop_clear_fill _ _ _ Hob), Himg, fill_restore in Hpop
    by (eapply Forall_impl; [exact Hfree|by intros ? []]).
  injection Hpop as <-.
  rewrite length_app; cbn [length].
  replace (length ms + 1 - 1)%nat with (length ms) by lia. rewrite take_app_length.
  pose proof (true_cells_le _ Hwf) as Hle. pose proof (true_cells_le _ Hwfc) as Hlec.
  rewrite <- Hcnt in Hle.
  rewrite <- Hcells, true_cells_mark, length_image in Hcnt by done.
  assert (Hw : wrap (count g - Z.of_nat (length (pos (MovePiece m))))
               = count g - Z.of_nat (length (pos (MovePiece m)))).
  { apply wrap_in_int. unfold in_int, int_min, int_max, DimX, DimY in *. lia. }
  assert (Hw' : wrap (count g - Z.of_nat (length (pos (MovePiece m)))
                      + Z.of_nat (length (pos (MovePiece m)))) = count g).
  { rewrite wrap_in_int; [lia|].
    unfold in_int, int_min, int_max, DimX, DimY in *. lia. }
  assert (Em : mkMove (MovePiece m) (Translate m) = m) by (by destruct m).
  rewrite add_free_places; cbn [moves cells count]; rewrite ?Hw, ?Hw', ?Em.
  - rewrite Hcells, <- Hms. by destruct g.
  - done.
  - done.
  - done.
Qed.

Lemma session_pop_add_roundtrip_witness :
  exists m, last (moves one_move_Game) = Some m
            /\ add new_Game (MovePiece m) (Translate m)
               = Returned (true, None) one_move_Game.
Proof.
  apply (session_pop_add_roundtrip empty_board new_Game one_move_Game new_Game).
  - reflexivity.
  - apply (reach_add new_Game new_Game one_move_Game red_piece (0, 0)).
    + constructor.
    + exists red_piece. split; vm_compute; tauto.
    + reflexivity.
  - reflexivity.
Defined.

(** ** The search finds the tilings *)

Lemma solve_rev_cons (versions : list Piece) (rest : list (list Piece)) (g : Game) :
  solve_rev (versions :: rest) g
  = solve_loop (solve_rev rest) (candidates versions) g [].
Proof. reflexivity. Qed.

Lemma candidates_spec (versions : list Piece) (x y : Z) (piece : Piece) :
  In ((x, y), piece) (candidates versions)
  <-> 0 <= x < DimX /\ 0 <= y < DimY /\ In piece versions.
Proof.
  unfold candidates. rewrite <- !list_elem_of_In, list_elem_of_bind. split.
  - intros (x' & Hin & Hx%elem_of_seqZ).
    apply list_elem_of_bind in Hin as (y' & Hin & Hy%elem_of_seqZ).
    apply list_elem_of_bind in Hin as (pc & Hin & Hpc).
    apply list_elem_of_singleton in Hin as [= -> -> ->].
    split; [lia|]. split; [lia|done].
  - intros (Hx & Hy & Hpc). exists x. split; [|apply elem_of_seqZ; lia].
    apply list_elem_of_bind. exists y. split; [|apply elem_of_seqZ; lia].
    apply list_elem_of_bind. exists piece. split; [|done].
    by apply list_elem_of_singleton.
Qed.

(** What [add] can return. *)
Lemma add_returns (g g1 : Game) (piece : Piece) (anchor : Pos)
    (ok : bool) (e : option string) :
  add g piece anchor = Returned (ok, e) g1 ->
  (ok = true /\ e = None)
  \/ (ok = false /\ g1 = g
      /\ (e = None \/ e = Some "board is already full"%string)).
Proof.
  unfold add. destruct (_ >? _).
  - intros [= <- <- <-]. right. split; [done|]. split; [done|by right].
  - destruct (add_scan _ _ _ _ _); [discriminate| |].
    + intros [= <- <- <-]. right. split; [done|]. split; [done|by left].
    + destruct (add_mark _ _ _); [|discriminate]. intros [= <- <- _]. by left.
Qed.

Lemma add_then_pop (g g1 : Game) (piece : Piece) (anchor : Pos) :
  in_int (count g) -> add g piece anchor = Returned (true, None) g1 ->
  pop g1 = Returned None g /\ in_int (count g1).
Proof.
  intros Hc Hadd. apply add_placed_inv in Hadd as (_ & _ & Hfree & ->).
  split; [|apply wrap_range].
  unfold pop; cbn [moves cells count]. rewrite last_snoc. cbn [MovePiece Translate].
  rewrite pop_clear_fill.
  - rewrite <- image_fmap, fill_restore
      by (eapply Forall_impl; [exact Hfree|by intros ? []]).
    rewrite length_app; cbn [length].
    replace (length (moves g) + 1 - 1)%nat with (length (moves g)) by lia.
    rewrite take_app_length, wrap_add_sub by done. by destruct g.
  - rewrite image_fmap in Hfree. apply Forall_fmap in Hfree.
    eapply Forall_impl; [exact Hfree|]. by intros ? [].
Qed.

Section SolveLoop.

Variable rec : Game -> Outcome (option string * list (list Move)).
Variable rest : list (list Piece).
Variable versions : list Piece.

(** The recursive call sends only tilings of the shortened pool and,
    when it returns no error, all of them, with the game as it was. *)
Hypothesis rec_tilings :
  forall g1 e s g2, in_int (count g1) -> rec g1 = Returned (e, s) g2 ->
    (forall sol, In sol s -> tiling g1 rest sol)
    /\ (e = None -> g2 = g1 /\ forall sol, tiling g1 rest sol -> In sol s).

Lemma solve_loop_tilings (cs : list (Pos * Piece)) :
  forall (g g' : Game) (sent s' : list (list Move)) (e : option string),
  in_int (count g) ->
  (forall c, In c cs -> In c (candidates versions)) ->
  solve_loop rec cs g sent = Returned (e, s') g' ->
  (forall sol, In sol s' -> In sol sent \/ tiling g (versions :: rest) sol)
  /\ (e = None ->
      g' = g
      /\ forall sol,
           In sol sent
           \/ (exists p pc g1, In (p, pc) cs
                               /\ add g pc p = Returned (true, None) g1
                               /\ tiling g1 rest sol) ->
           In sol s').
Proof.
  induction cs as [|[[x y] pc] cs IH]; intros g g' sent s' e Hc Hcs H;
    cbn [solve_loop] in H.
  - injection H as <- <- <-. split; [by left|]. intros _. split; [done|].
    intros sol [?|(? & ? & ? & [] & _)]. done.
  - assert (Hcs' : forall c, In c cs -> In c (candidates versions))
      by (intros c Hin; apply Hcs; by right).
    assert (Hhead : 0 <= x < DimX /\ 0 <= y < DimY /\ In pc versions)
      by (apply candidates_spec, Hcs; by left).
    destruct Hhead as (Hx & Hy & Hpc).
    destruct (add g pc (x, y)) as [|[ok err] g1] eqn:Hadd; [discriminate|].
    destruct (add_returns _ _ _ _ _ _ Hadd)
      as [[-> ->]|(-> & -> & [->| ->])].
    + destruct (add_then_pop _ _ _ _ Hc Hadd) as [Hpop Hc1].
      destruct (rec g1) as [|[[err|] s] g2] eqn:Hrec; [discriminate| |].
      * injection H as <- <- <-.
        destruct (rec_tilings _ _ _ _ Hc1 Hrec) as [Hsound _].
        split; [|discriminate]. intros sol [?|Hs]%in_app_or; [by left|].
        right. eapply tiling_place; eauto.
      * destruct (rec_tilings _ _ _ _ Hc1 Hrec) as [Hsound Hcomplete].
        destruct (Hcomplete eq_refl) as [-> Hall]. rewrite Hpop in H.
        apply IH in H as [IH1 IH2]; [|done|done]. split.
        -- intros sol Hs. destruct (IH1 sol Hs) as [[?|?]%in_app_or|?];
             [by left| |by right].
           right. eapply tiling_place; eauto.
        -- intros He. destruct (IH2 He) as [-> IH3]. split; [done|].
           intros sol [Hs|(p & pc' & g1' & [E|Hin] & Hadd' & Ht)].
           ++ apply IH3. left. apply in_or_app. by left.
           ++ injection E as <- <-. rewrite Hadd in Hadd'.
              injection Hadd' as <-.
              apply IH3. left. apply in_or_app. right. by apply Hall.
           ++ apply IH3. right. by exists p, pc', g1'.
    + apply IH in H as [IH1 IH2]; [|done|done]. split; [done|].
      intros He. destruct (IH2 He) as [-> IH3]. split; [done|].
      intros sol [Hs|(p & pc' & g1' & [E|Hin] & Hadd' & Ht)].
      * apply IH3. by left.
      * injection E as <- <-. rewrite Hadd in Hadd'. discriminate.
      * apply IH3. right. by exists p, pc', g1'.
    + injection H as <- <- <-. split; [by left|discriminate].
Qed.

End SolveLoop.

Lemma solve_rev_tilings (rps : list (list Piece)) :
  forall (g g' : Game) (e : option string) (s : list (list Move)),
  in_int (count g) -> solve_rev rps g = Returned (e, s) g' ->
  (forall sol, In sol s -> tiling g rps sol)
  /\ (e = None -> g' = g /\ forall sol, tiling g rps sol -> In sol s).
Proof.
  induction rps as [|versions rest IH]; intros g g' e s Hc H.
  - cbn [solve_rev] in H. destruct (Z.eqb_spec (count g) (DimX * DimY)) as [Hfull|Hn];
      cbn [negb] in H; injection H as <- <- <-.
    + split.
      * intros sol [<-|[]]. by constructor.
      * intros _. split; [done|]. intros sol Ht. inversion Ht. by left.
    + split; [by intros sol []|discriminate].
  - rewrite solve_rev_cons in H.
    apply (solve_loop_tilings (solve_rev rest) rest versions) in H
      as [H1 H2]; [| |done|done].
    + split.
      * intros sol Hs. by destruct (H1 sol Hs) as [[]|?].
      * intros He. destruct (H2 He) as [-> H3]. split; [done|].
        intros sol Ht. apply H3. right.
        inversion Ht as [|g0 g1 vs rs x y pc sol0 Hx Hy Hpc Hadd Ht1]; subst.
        exists (x, y), pc, g1. split; [by apply candidates_spec|done].
    + intros g1 e1 s1 g2 Hc1 Hrec. by apply IH.
Qed.

(** X21: every move list [solve] sends is a tiling: one orientation of
    each entry of the pool, taken from the last entry to the first, each
    placed by a successful [add] at an anchor of the board, with the
    count at [DimX * DimY] at the end.  This holds also for what was sent
    before an error. *)
Theorem solve_sends_tilings (g g' : Game) (ps : list (list Piece))
    (e : option string) (sent : list (list Move)) (sol : list Move) :
  in_int (count g) -> solve g ps = Returned (e, sent) g' -> In sol sent ->
  tiling g (rev ps) sol.
Proof.
  intros Hc H Hs. unfold solve in H.
  apply solve_rev_tilings in H as [H1 _]; [|done]. by apply H1.
Qed.

(** X22: when [solve] returns without error it has sent every tiling and
    only tilings, and the game is again the one it was called on. *)
Theorem solve_finds_all_tilings (g g' : Game) (ps : list (list Piece))
    (sent : list (list Move)) :
  in_int (count g) -> solve g ps = Returned (None, sent) g' ->
  g' = g /\ forall sol, In sol sent <-> tiling g (rev ps) sol.
Proof.
  intros Hc H. unfold solve in H.
  apply solve_rev_tilings in H as [H1 H2]; [|done].
  destruct (H2 eq_refl) as [-> H3]. split; [done|].
  intros sol. split; [apply H1|apply H3].
Qed.

(** ** The search fails only in the two ways it names *)

Section SolveLoopSafe.

Variable rec : Game -> Outcome (option string * list (list Move)).

Hypothesis rec_safe :
  forall g1, in_int (count g1) ->
    rec g1 <> Panicked
    /\ (forall e s g2, rec g1 = Returned (Some e, s) g2 -> search_error e)
    /\ (forall s g2, rec g1 = Returned (None, s) g2 -> g2 = g1).

Lemma solve_loop_safe (cs : list (Pos * Piece)) :
  forall (g : Game) (sent : list (list Move)),
  in_int (count g) ->
  Forall (fun c => (length (pos c.2) <= 5)%nat) cs ->
  solve_loop rec cs g sent <> Panicked
  /\ forall e s g', solve_loop rec cs g sent = Returned (Some e, s) g' ->
       search_error e.
Proof.
  induction cs as [|[p pc] cs IH]; intros g sent Hc Hsmall; cbn [solve_loop].
  - split; [done|]. intros e s g'. discriminate.
  - apply Forall_cons in Hsmall as [Hpc Hsmall]. cbn [snd] in Hpc.
    pose proof (add_no_panic g pc p Hpc) as Hnp.
    destruct (add g pc p) as [|[ok err] g1] eqn:Hadd; [done|].
    destruct (add_returns _ _ _ _ _ _ Hadd) as [[-> ->]|(-> & -> & [->| ->])].
    + destruct (add_then_pop _ _ _ _ Hc Hadd) as [Hpop Hc1].
      destruct (rec_safe g1 Hc1) as (Hrnp & Hrerr & Hrsame).
      destruct (rec g1) as [|[[err|] s] g2] eqn:Hrec; [done| |].
      * split; [done|]. intros e s' g' [= <- _ _]. by eapply Hrerr.
      * rewrite (Hrsame s g2 eq_refl), Hpop. by apply IH.
    + by apply IH.
    + split; [done|]. intros e s g' [= <- _ _]. by left.
Qed.

End SolveLoopSafe.

Lemma solve_rev_safe (rps : list (list Piece)) :
  forall g : Game,
  in_int (count g) ->
  Forall (Forall (fun o => (length (pos o) <= 5)%nat)) rps ->
  solve_rev rps g <> Panicked
  /\ forall e s g', solve_rev rps g = Returned (Some e, s) g' -> search_error e.
Proof.
  induction rps as [|versions rest IH]; intros g Hc Hsmall.
  - cbn [solve_rev]. destruct (negb _); (split; [done|]).
    + intros e s g' [= <- _ _]. by right.
    + intros e s g'. discriminate.
  - apply Forall_cons in Hsmall as [Hv Hsmall]. rewrite solve_rev_cons.
    apply solve_loop_safe; [|done|].
    + intros g1 Hc1. destruct (IH g1 Hc1 Hsmall) as [Hnp Herr].
      split; [done|]. split; [done|]. intros s g2 H.
      by apply solve_rev_tilings in H as [_ [-> _]].
    + rewrite Forall_forall in Hv. apply Forall_forall. intros [[x y] pc] Hin.
      apply list_elem_of_In, candidates_spec in Hin as (_ & _ & Hpc).
      apply Hv. by apply list_elem_of_In.
Qed.

(** X23: on a pool of pieces of at most 5 offsets [solve] never panics,
    and an error it returns is the one of the budget test of [add] or the
    one of the pool exhausted before the board is full; it is never the
    error of [pop]. *)
Theorem solve_errors (g : Game) (ps : list (list Piece)) :
  in_int (count g) ->
  Forall (Forall (fun o => (length (pos o) <= 5)%nat)) ps ->
  solve g ps <> Panicked
  /\ forall e s g', solve g ps = Returned (Some e, s) g' -> search_error e.
Proof.
  intros Hc Hsmall. unfold solve. apply solve_rev_safe; [done|].
  by apply Forall_rev.
Qed.

Lemma solve_errors_witness :
  solve corner_Game [allVersions turquoise_piece] <> Panicked
  /\ forall e s g',
       solve corner_Game [allVersions turquoise_piece] = Returned (Some e, s) g' ->
       search_error e.
Proof.
  apply (solve_errors corner_Game [allVersions turquoise_piece]).
  - vm_compute. split; discriminate.
  - apply (bool_decide_unpack _). by vm_compute.
Defined.

(** ** The tilings are exact covers *)

Lemma true_cells_bound (c : Cells) (n : nat) :
  Forall (fun row => length row = n) c -> (true_cells c <= length c * n)%nat.
Proof.
  induction 1 as [|row c Hrow _ IH]; cbn [true_cells length]; [lia|].
  pose proof (row_count_le row). lia.
Qed.

Lemma full_rows (c : Cells) (n : nat) :
  Forall (fun row => length row = n) c -> true_cells c = (length c * n)%nat ->
  Forall (fun row => row_count row = length row) c.
Proof.
  induction 1 as [|row c Hrow Hrows IH]; cbn [true_cells length]; [constructor|].
  intros H. pose proof (row_count_le row). pose proof (true_cells_bound c n Hrows).
  constructor; [lia|]. apply IH. lia.
Qed.

Lemma full_row_lookup (row : list bool) (j : nat) (b : bool) :
  row_count row = length row -> row !! j = Some b -> b = true.
Proof.
  revert j. induction row as [|b' row IH]; intros j Hfull Hj; [done|].
  cbn [row_count length] in Hfull. pose proof (row_count_le row).
  destruct b'; [|lia]. destruct j as [|j]; simpl in Hj; [congruence|].
  apply (IH j); [lia|done].
Qed.

Lemma full_cells (c : Cells) (p : Pos) :
  wf_cells c -> Z.of_nat (true_cells c) = DimX * DimY ->
  out_of_bounds p = false -> cell c p = true.
Proof.
  intros Hwf Hfull Hp. pose proof (wf_cell_opt c p Hwf Hp) as Hopt.
  destruct Hwf as [Hlen Hrows].
  assert (Hall : Forall (fun row => row_count row = length row) c).
  { apply (full_rows c (Z.to_nat DimY) Hrows). rewrite Hlen.
    unfold DimX, DimY in *. lia. }
  unfold cell_opt, idx in Hopt; cbn [fst snd] in Hopt.
  destruct (c !! Z.to_nat p.1) as [row|] eqn:Hrow; [|done]. simpl in Hopt.
  rewrite Forall_forall in Hall.
  apply (full_row_lookup row (Z.to_nat p.2)); [|done].
  apply Hall. by eapply list_elem_of_lookup_2.
Qed.

Lemma tiling_session (g0 g : Game) (rps : list (list Piece)) (sol : list Move) :
  tiling g rps sol -> session_inv g0 g ->
  Forall (Forall distinct_offsets) rps ->
  exists gf, session_inv g0 gf /\ moves gf = sol /\ count gf = DimX * DimY
             /\ length sol = (length (moves g) + length rps)%nat.
Proof.
  induction 1 as [g Hfull|g g1 versions rest x y piece sol Hx Hy Hpc Hadd Ht IH];
    intros Hinv Hpool.
  - exists g. split; [done|]. split; [done|]. split; [done|]. simpl. lia.
  - apply Forall_cons in Hpool as [Hv Hpool]. rewrite Forall_forall in Hv.
    assert (Hinv1 : session_inv g0 g1).
    { eapply session_inv_add; [exact Hinv| |exact Hadd].
      apply Hv. by apply list_elem_of_In. }
    destruct (IH Hinv1 Hpool) as (gf & Hf & Hmv & Hcnt & Hlen).
    exists gf. split; [done|]. split; [done|]. split; [done|].
    apply add_placed_inv in Hadd as (_ & _ & _ & ->). cbn [moves] in Hlen.
    rewrite length_app in Hlen. simpl in *. lia.
Qed.

Lemma tiling_cover (g0 g : Game) (rps : list (list Piece)) (sol : list Move) (p : Pos) :
  session_inv g0 g0 -> session_inv g0 g ->
  Forall (Forall catalog_orientation) rps ->
  tiling g rps sol -> out_of_bounds p = false ->
  NoDup (images sol)
  /\ (cell (cells g0) p = false <-> p ∈ images sol)
  /\ count g0 + image_sizes sol = DimX * DimY
  /\ length sol = (length (moves g) + length rps)%nat.
Proof.
  intros H0 Hinv Hpool Ht Hp.
  apply (tiling_session g0) in Ht as (gf & Hf & <- & Hfull & Hlen); [|done|].
  2:{ eapply Forall_impl; [exact Hpool|].
      intros vs Hvs. eapply Forall_impl; [exact Hvs|].
      apply catalog_distinct_offsets. }
  destruct Hf as (Hwf & Hcnt & Hsum & Hst & _). destruct H0 as (Hwf0 & _).
  destruct (stacked_images _ _ _ Hwf0 Hst) as (_ & Hnd & Hall & Hcell).
  split; [done|]. split; [|split; [lia|done]].
  pose proof (full_cells (cells gf) p Hwf ltac:(lia) Hp) as Hfullp.
  rewrite Hcell in Hfullp by done. split.
  - intros Hfree. rewrite Hfree in Hfullp. by apply bool_decide_eq_true in Hfullp.
  - intros Hin. rewrite Forall_forall in Hall. by apply Hall.
Qed.

Lemma session_inv_in_int (g0 g : Game) : session_inv g0 g -> in_int (count g).
Proof.
  intros (Hwf & Hcnt & _). pose proof (true_cells_le _ Hwf).
  unfold in_int, int_min, int_max, DimX, DimY in *. lia.
Qed.

(** X24: a move list [solve] sends from a session of a parsed board, on a
    pool of catalog orientations, covers the board exactly: no cell
    occurs twice in the images of its moves, and a cell of the board is
    in them exactly when the parsed board left it free.  The sizes of the
    images and the count of the parsed board add up to [DimX * DimY]. *)
Theorem solve_solutions_cover (b : string) (g0 g g' : Game)
    (ps : list (list Piece)) (e : option string) (sent : list (list Move))
    (sol : list Move) (p : Pos) :
  parseBoard b = inr g0 -> reachable g0 g ->
  Forall (Forall catalog_orientation) ps ->
  solve g ps = Returned (e, sent) g' -> In sol sent ->
  out_of_bounds p = false ->
  NoDup (images sol)
  /\ (cell (cells g0) p = false <-> p ∈ images sol)
  /\ count g0 + image_sizes sol = DimX * DimY
  /\ length sol = (length (moves g) + length ps)%nat.
Proof.
  intros Hparse Hr Hpool Hsolve Hsol Hp.
  pose proof (parseBoard_session_inv b g0 Hparse) as H0.
  pose proof (session_inv_reachable g0 g H0 Hr) as Hinv.
  unfold solve in Hsolve.
  apply solve_rev_tilings in Hsolve as [Hsound _]; [|by eapply session_inv_in_int].
  rewrite <- (length_rev ps).
  apply (tiling_cover g0 g); [done|done|by apply Forall_rev|by apply Hsound|done].
Qed.

Lemma solve_solutions_cover_witness :
  NoDup (images [mkMove turquoise_piece (0, 0)])
  /\ (cell (cells corner_Game) (0, 1) = false
      <-> (0, 1) ∈ images [mkMove turquoise_piece (0, 0)])
  /\ count corner_Game + image_sizes [mkMove turquoise_piece (0, 0)] = DimX * DimY
  /\ length [mkMove turquoise_piece (0, 0)]
     = (length (moves corner_Game) + length [allVersions turquoise_piece])%nat.
Proof.
  apply (solve_solutions_cover corner_board corner_Game corner_Game corner_Game
           [allVersions turquoise_piece] None corner_solutions
           [mkMove turquoise_piece (0, 0)] (0, 1)).
  - reflexivity.
  - constructor.
  - repeat constructor; exists turquoise_piece; split; vm_compute; tauto.
  - vm_compute. reflexivity.
  - left. reflexivity.
  - reflexivity.
Defined.

Lemma tiling_moves (g : Game) (rps : list (list Piece)) (sol : list Move) :
  tiling g rps sol ->
  exists t, sol = moves g ++ t
            /\ Forall2 (fun m versions => In (MovePiece m) versions
                                          /\ out_of_bounds (Translate m) = false)
                       t rps.
Proof.
  induction 1 as [g Hfull|g g1 versions rest x y piece sol Hx Hy Hpc Hadd Ht IH].
  - exists []. split; [by rewrite app_nil_r|constructor].
  - destruct IH as (t & -> & Ht2).
    apply add_placed_inv in Hadd as (_ & _ & _ & ->). cbn [moves].
    exists (mkMove piece (x, y) :: t). split; [by rewrite <- app_assoc|].
    constructor; [|done]. split; [done|]. by apply out_of_bounds_false.
Qed.

(** X25: a move list [solve] sends is the move stack it was called with
    followed by one move for each entry of the pool, from the last entry
    to the first: an orientation of that entry at an anchor of the
    board. *)
Theorem solve_solution_moves (g g' : Game) (ps : list (list Piece))
    (e : option string) (sent : list (list Move)) (sol : list Move) :
  in_int (count g) -> solve g ps = Returned (e, sent) g' -> In sol sent ->
  exists t, sol = moves g ++ t
            /\ Forall2 (fun m versions => In (MovePiece m) versions
                                          /\ out_of_bounds (Translate m) = false)
                       t (rev ps).
Proof.
  intros Hc Hsolve Hsol. unfold solve in Hsolve.
  apply solve_rev_tilings in Hsolve as [Hsound _]; [|done].
  by apply tiling_moves, Hsound.
Qed.

Lemma solve_solution_moves_witness :
  exists t, [mkMove turquoise_piece (0, 0)] = moves corner_Game ++ t
            /\ Forall2 (fun m versions => In (MovePiece m) versions
                                          /\ out_of_bounds (Translate m) = false)
                       t (rev [allVersions turquoise_piece]).
Proof.
  apply (solve_solution_moves corner_Game corner_Game [allVersions turquoise_piece]
           None corner_solutions [mkMove turquoise_piece (0, 0)]).
  - vm_compute. split; discriminate.
  - vm_compute. reflexivity.
  - left. reflexivity.
Defined.

(** ** The goroutines of [solveP] *)

Lemma solveP_snoc (g : Game) (ps : list (list Piece)) (versions : list Piece) :
  solveP g (ps ++ [versions])
  = Chan (map (solveP_branch g ps) (candidates versions)).
Proof.
  unfold solveP. rewrite length_app; cbn [length].
  destruct (Nat.eqb_spec (length ps + 1) 0) as [E|_]; [lia|].
  replace (length ps + 1 - 1)%nat with (length ps) by lia.
  by rewrite take_app_length, last_snoc.
Qed.

Lemma solveP_Chan (g : Game) (ps : list (list Piece)) (bs : list Branch) :
  solveP g ps = Chan bs ->
  exists rest versions,
    ps = rest ++ [versions]
    /\ bs = map (solveP_branch g rest) (candidates versions).
Proof.
  intros H. destruct (last ps) as [versions|] eqn:Hlast.
  - apply last_Some in Hlast as [rest ->]. exists rest, versions.
    split; [done|]. rewrite solveP_snoc in H. by injection H as <-.
  - apply last_None in Hlast as ->. discriminate.
Qed.

Lemma length_bind_const {A B : Type} (f : A -> list B) (l : list A) (n : nat) :
  (forall a, length (f a) = n) -> length (l ≫= f) = (length l * n)%nat.
Proof.
  intros Hf. induction l as [|a l IH]; [done|].
  rewrite bind_cons, length_app, Hf, IH. simpl. lia.
Qed.

Lemma length_candidates (versions : list Piece) :
  length (candidates versions)
  = (Z.to_nat DimX * Z.to_nat DimY * length versions)%nat.
Proof.
  unfold candidates.
  rewrite (length_bind_const _ _ (Z.to_nat DimY * length versions)), length_seqZ; [lia|].
  intros x. rewrite (length_bind_const _ _ (length versions)), length_seqZ; [lia|].
  intros y. rewrite (length_bind_const _ _ 1); [lia|done].
Qed.

(** X26: on a non-empty pool [solveP] starts one goroutine for every cell
    of the board and every orientation of the last entry of the pool:
    [DimX * DimY] times the number of these orientations. *)
Theorem solveP_branches (g : Game) (ps : list (list Piece)) (versions : list Piece) :
  exists bs, solveP g (ps ++ [versions]) = Chan bs
             /\ length bs = (Z.to_nat DimX * Z.to_nat DimY * length versions)%nat.
Proof.
  eexists. split; [apply solveP_snoc|]. by rewrite length_map, length_candidates.
Qed.

Lemma solveP_branch_Done (g : Game) (rest : list (list Piece))
    (c : Pos * Piece) (sent : list (list Move)) :
  solveP_branch g rest c = BranchDone sent <->
  exists g1 g2, add (clone g) c.2 c.1 = Returned (true, None) g1
                /\ solve g1 rest = Returned (None, sent) g2.
Proof.
  unfold solveP_branch, clone.
  destruct (add _ c.2 c.1) as [|[[|] [err|]] g1] eqn:Hadd;
    try (split; [discriminate|]; by intros (? & ? & ? & _)).
  destruct (solve g1 rest) as [|[[err|] s] g2] eqn:Hs.
  - split; [discriminate|]. intros (? & ? & [= <-] & H).
    rewrite Hs in H. discriminate.
  - split; [discriminate|]. intros (? & ? & [= <-] & H).
    rewrite Hs in H. discriminate.
  - split.
    + intros [= <-]. by exists g1, g2.
    + intros (? & ? & [= <-] & H). rewrite Hs in H. by injection H as <- _.
Qed.

(** X27: the move lists the goroutines of [solveP] send are tilings from
    the clone of the game (its grid and count, no move) with the whole
    pool, and, when no goroutine panicked, every such tiling is sent by
    one of them. *)
Theorem solveP_sends_all_tilings (g : Game) (ps : list (list Piece))
    (bs : list Branch) (sol : list Move) :
  in_int (count g) -> solveP g ps = Chan bs ->
  ((exists sent, In (BranchDone sent) bs /\ In sol sent) ->
   tiling (clone g) (rev ps) sol)
  /\ (~ In BranchPanicked bs -> tiling (clone g) (rev ps) sol ->
      exists sent, In (BranchDone sent) bs /\ In sol sent).
Proof.
  intros Hc H. apply solveP_Chan in H as (rest & versions & -> & ->).
  rewrite rev_app_distr. cbn [rev app]. split.
  - intros (sent & Hin & Hsol).
    apply in_map_iff in Hin as ([[x y] pc] & Hbr & Hcand).
    apply solveP_branch_Done in Hbr as (g1 & g2 & Hadd & Hsolve). cbn [fst snd] in Hadd.
    apply candidates_spec in Hcand as (Hx & Hy & Hpc).
    apply (tiling_place (clone g) g1 versions (rev rest) x y pc); [done..|].
    unfold solve in Hsolve.
    apply solve_rev_tilings in Hsolve as [Hsound _]; [by apply Hsound|].
    by apply (add_then_pop (clone g) g1 pc (x, y)).
  - intros Hnp Ht.
    inversion Ht as [|g0 g1 vs rs x y pc sol0 Hx Hy Hpc Hadd Ht1]; subst.
    assert (Hcand : In ((x, y), pc) (candidates versions))
      by (by apply candidates_spec).
    assert (Hc1 : in_int (count g1))
      by (by apply (add_then_pop (clone g) g1 pc (x, y))).
    pose proof (in_map (solveP_branch g rest) _ _ Hcand) as Hbr.
    destruct (solve g1 rest) as [|[[err|] s] g2] eqn:Hsolve.
    + exfalso. apply Hnp. unfold solveP_branch at 1 in Hbr. cbn [fst snd] in Hbr.
      unfold clone in Hadd. by rewrite Hadd, Hsolve in Hbr.
    + exfalso. apply Hnp. unfold solveP_branch at 1 in Hbr. cbn [fst snd] in Hbr.
      unfold clone in Hadd. by rewrite Hadd, Hsolve in Hbr.
    + exists s. split.
      * replace (BranchDone s) with (solveP_branch g rest ((x, y), pc)); [done|].
        apply solveP_branch_Done. by exists g1, g2.
      * unfold solve in Hsolve.
        apply solve_rev_tilings in Hsolve as [_ Hcomplete]; [|done].
        destruct (Hcomplete eq_refl) as [_ Hall]. by apply Hall.
Qed.

Lemma solveP_sends_all_tilings_witness :
  ((exists sent,
      In (BranchDone sent) (map (solveP_branch corner_Game [])
                                (candidates (allVersions turquoise_piece)))
      /\ In [mkMove turquoise_piece (0, 0)] sent) ->
   tiling (clone corner_Game) (rev [allVersions turquoise_piece])
          [mkMove turquoise_piece (0, 0)])
  /\ (~ In BranchPanicked (map (solveP_branch corner_Game [])
                               (candidates (allVersions turquoise_piece))) ->
      tiling (clone corner_Game) (rev [allVersions turquoise_piece])
             [mkMove turquoise_piece (0, 0)] ->
      exists sent,
        In (BranchDone sent) (map (solveP_branch corner_Game [])
                                  (candidates (allVersions turquoise_piece)))
        /\ In [mkMove turquoise_piece (0, 0)] sent).
Proof.
  apply (solveP_sends_all_tilings corner_Game [allVersions turquoise_piece]).
  - vm_compute. split; discriminate.
  - reflexivity.
Defined.

(** X28: a move list a goroutine of [solveP] sends for a parsed board, on
    a pool of catalog orientations, has one move for every entry of the
    pool and covers the board exactly: no cell occurs twice in the images
    of its moves, and a cell of the board is in them exactly when the
    parsed board left it free. *)
Theorem solveP_solutions_cover (b : string) (g : Game) (ps : list (list Piece))
    (bs : list Branch) (sent : list (list Move)) (sol : list Move) (p : Pos) :
  parseBoard b = inr g ->
  Forall (Forall catalog_orientation) ps ->
  solveP g ps = Chan bs -> In (BranchDone sent) bs -> In sol sent ->
  out_of_bounds p = false ->
  NoDup (images sol)
  /\ (cell (cells g) p = false <-> p ∈ images sol)
  /\ length sol = length ps.
Proof.
  intros Hparse Hpool H Hin Hsol Hp.
  pose proof (parseBoard_session_inv b g Hparse) as H0.
  pose proof (parseBoard_no_moves b g Hparse) as Hmv.
  assert (Hclone : clone g = g).
  { unfold clone. rewrite <- Hmv. by destruct g. }
  apply solveP_Chan in H as (rest & versions & -> & ->).
  apply Forall_app in Hpool as [Hrest Hv]. apply (proj1 (Forall_singleton _ _)) in Hv.
  apply in_map_iff in Hin as ([[x y] pc] & Hbr & Hcand).
  apply solveP_branch_Done in Hbr as (g1 & g2 & Hadd & Hsolve). cbn [fst snd] in Hadd.
  rewrite Hclone in Hadd.
  apply candidates_spec in Hcand as (Hx & Hy & Hpc).
  rewrite Forall_forall in Hv. apply list_elem_of_In in Hpc.
  assert (Hinv1 : session_inv g g1).
  { eapply session_inv_add; [exact H0| |exact Hadd].
    by apply catalog_distinct_offsets, Hv. }
  unfold solve in Hsolve.
  apply solve_rev_tilings in Hsolve as [Hsound _]; [|by eapply session_inv_in_int].
  apply Forall_rev in Hrest.
  destruct (tiling_cover g g1 (rev rest) sol p H0 Hinv1 Hrest
              (Hsound sol Hsol) Hp) as (Hnd & Hcover & _ & Hlen).
  split; [done|]. split; [done|].
  apply add_placed_inv in Hadd as (_ & _ & _ & ->). cbn [moves] in Hlen.
  rewrite Hlen, !length_app, length_rev, Hmv. simpl. lia.
Qed.

Lemma solveP_solutions_cover_witness :
  NoDup (images [mkMove turquoise_piece (0, 0)])
  /\ (cell (cells corner_Game) (1, 0) = false
      <-> (1, 0) ∈ images [mkMove turquoise_piece (0, 0)])
  /\ length [mkMove turquoise_piece (0, 0)] = length [allVersions turquoise_piece].
Proof.
  apply (solveP_solutions_cover corner_board corner_Game [allVersions turquoise_piece]
           (map (solveP_branch corner_Game []) (candidates (allVersions turquoise_piece)))
           [[mkMove turquoise_piece (0, 0)]] [mkMove turquoise_piece (0, 0)] (1, 0)).
  - reflexivity.
  - repeat constructor; exists turquoise_piece; split; vm_compute; tauto.
  - reflexivity.
  - vm_compute. left. reflexivity.
  - left. reflexivity.
  - reflexivity.
Defined.

(** ** The budget test stops the search *)

Lemma add_over_budget (g : Game) (piece : Piece) (anchor : Pos) :
  in_int (count g + Z.of_nat (length (pos piece))) ->
  count g + Z.of_nat (length (pos piece)) > DimX * DimY ->
  add g piece anchor = Returned (false, Some "board is already full"%string) g.
Proof.
  intros Hint Hgt. unfold add. rewrite (wrap_in_int _ Hint).
  destruct (Z.gtb_spec (count g + Z.of_nat (length (pos piece))) (DimX * DimY));
    [done|lia].
Qed.

Lemma candidates_cons (o : Piece) (vs : list Piece) :
  exists cs, candidates (o :: vs) = ((0, 0), o) :: cs.
Proof. unfold candidates. by eexists. Qed.

(** X29: when the count of the game and the offsets of the first
    orientation of the last entry of the pool together exceed
    [DimX * DimY], [solve] returns the error of the full board at once:
    nothing is sent and the game is untouched. *)
Theorem solve_over_budget (g : Game) (ps : list (list Piece))
    (o : Piece) (vs : list Piece) :
  in_int (count g + Z.of_nat (length (pos o))) ->
  count g + Z.of_nat (length (pos o)) > DimX * DimY ->
  solve g (ps ++ [o :: vs])
  = Returned (Some "board is already full"%string, []) g.
Proof.
  intros Hint Hgt. unfold solve. rewrite rev_app_distr. cbn [rev app].
  rewrite solve_rev_cons. destruct (candidates_cons o vs) as [cs ->].
  cbn [solve_loop]. by rewrite add_over_budget.
Qed.

Lemma solve_over_budget_witness :
  solve full_Game ([] ++ [turquoise_piece :: []])
  = Returned (Some "board is already full"%string, []) full_Game.
Proof.
  apply (solve_over_budget full_Game [] turquoise_piece []).
  - vm_compute. split; discriminate.
  - reflexivity.
Defined.

(** X30: when the count of the game and the offsets of any orientation of
    the last entry of the pool together exceed [DimX * DimY], every
    goroutine of [solveP] panics on the error of [add]. *)
Theorem solveP_over_budget (g : Game) (ps : list (list Piece)) (versions : list Piece)
    (bs : list Branch) :
  Forall (fun o => in_int (count g + Z.of_nat (length (pos o)))
                   /\ count g + Z.of_nat (length (pos o)) > DimX * DimY) versions ->
  solveP g (ps ++ [versions]) = Chan bs ->
  Forall (fun br => br = BranchPanicked) bs.
Proof.
  intros Hover H. rewrite solveP_snoc in H. injection H as <-.
  rewrite Forall_forall in Hover. apply Forall_forall. intros br Hbr.
  apply list_elem_of_In, in_map_iff in Hbr as ([[x y] pc] & <- & Hcand).
  apply candidates_spec in Hcand as (_ & _ & Hpc).
  destruct (Hover pc) as [Hint Hgt]; [by apply list_elem_of_In|].
  unfold solveP_branch. cbn [fst snd].
  by rewrite (add_over_budget (mkGame [] (cells g) (count g)) pc (x, y) Hint Hgt).
Qed.

Lemma solveP_over_budget_witness :
  Forall (fun br => br = BranchPanicked)
         (map (solveP_branch full_Game []) (candidates [turquoise_piece])).
Proof.
  apply (solveP_over_budget full_Game [] [turquoise_piece]).
  - repeat constructor; vm_compute; discriminate.
  - reflexivity.
Defined.

(** ** The search on a board with one corner free *)

Lemma solve_sends_tilings_witness :
  tiling corner_Game (rev [allVersions turquoise_piece]) [mkMove turquoise_piece (0, 0)].
Proof.
  apply (solve_sends_tilings corner_Game corner_Game [allVersions turquoise_piece]
           None corner_solutions [mkMove turquoise_piece (0, 0)]).
  - vm_compute. split; discriminate.
  - vm_compute. reflexivity.
  - left. reflexivity.
Defined.

Lemma solve_finds_all_tilings_witness :
  corner_Game = corner_Game
  /\ forall sol, In sol corner_solutions
                 <-> tiling corner_Game (rev [allVersions turquoise_piece]) sol.
Proof.
  apply (solve_finds_all_tilings corner_Game corner_Game [allVersions turquoise_piece]
           corner_solutions).
  - vm_compute. split; discriminate.
  - vm_compute. reflexivity.
Defined.
